(** * trainer.py: the genetic-algorithm trainer and its matchmaking threads

    A shallow embedding of [src/trainer.py]: the population steps of one
    generation (sort, cull, refill) as functions on a store of player
    objects, and [train] with its worker threads as a labelled transition
    system whose labels are the scheduler's and the environment's choices
    (which thread moves, the order a shuffle produces, the numbers the
    random generator returns, the result of a match).  [fraction_kept] is a
    binary64 float, and the bound of the cut is computed as Python computes
    it. *)

From Stdlib Require Import List Bool Arith ZArith QArith Qround Lia.
From Stdlib Require Import Permutation Sorted Floats.
Import ListNotations.

Close Scope Q_scope.
Open Scope nat_scope.

(** ** Player objects

    [player.py] is not among the sources.  What [trainer.py] needs of an
    [NNPlayer] is listed in the specification's agent boundary: a rating that
    orders players, a deep copy, a mutation taking a rate, and a constructor
    without arguments. *)

(** Players are Python objects shared between the population list, the queue
    and the threads; a reference is an index into the store of all the
    objects created so far. *)
Definition ref := nat.

(** Modelled from the spec: the [NNPlayer] of [player.py], which is missing.
    Only the rating is kept of the player's state; [copied_from] and
    [mutated] record which calls of [copy] and [mutate] produced the
    object, where the network's weights would be. *)
Record NNPlayer := mkNNPlayer {
  elo : Z;
  copied_from : option ref;
  mutated : list Q
}.

Definition store := list NNPlayer.

Definition elo_of (h : store) (r : ref) : Z :=
  match nth_error h r with
  | Some p => elo p
  | None => 0%Z
  end.

(** [update i x l] is [l[i] = x] on an index in range, and [l] otherwise. *)
Fixpoint update {A : Type} (i : nat) (x : A) (l : list A) : list A :=
  match l, i with
  | [], _ => []
  | _ :: t, O => x :: t
  | y :: t, S j => y :: update j x t
  end.

Definition set_elo (r : ref) (e : Z) (h : store) : store :=
  match nth_error h r with
  | Some p => update r (mkNNPlayer e (copied_from p) (mutated p)) h
  | None => h
  end.

Section Player.

(** The rating [NNPlayer()] starts with: a constant of [player.py]. *)
Variable initial_elo : Z.

(** Modelled from the spec: [NNPlayer()], "a zero-argument
    fresh-instantiation constructor". *)
Definition NNPlayer_new (h : store) : ref * store :=
  (length h, h ++ [mkNNPlayer initial_elo None []]).

(** Modelled from the spec: [p.copy()], "a deep-copy operation": a new
    object with the rating of [p]. *)
Definition copy (p : ref) (h : store) : ref * store :=
  (length h, h ++ [mkNNPlayer (elo_of h p) (Some p) []]).

(** Modelled from the spec: [p.mutate(rate)], "a mutation operation taking
    a rate parameter"; it changes [p] in place. *)
Definition mutate (rate : Q) (p : ref) (h : store) : store :=
  match nth_error h p with
  | Some x => update p (mkNNPlayer (elo x) (copied_from x) (rate :: mutated x)) h
  | None => h
  end.

(** [[NNPlayer() for _ in range(n)]] *)
Fixpoint new_players (n : nat) (h : store) : list ref * store :=
  match n with
  | O => ([], h)
  | S n' =>
      let (p, h1) := NNPlayer_new h in
      let (ps, h2) := new_players n' h1 in
      (p :: ps, h2)
  end.

End Player.

(** ** Exceptions *)

Inductive exn :=
| OddPopulationError   (* line 84 *)
| IndexError           (* [players[0]] and [choice] on an empty list *)
| MatchError           (* whatever a match raises *)
| OverflowError        (* [int] of an infinite float *)
| ValueError.          (* [int] of a float that is not a number *)

(** How a block of statements ends. *)
Inductive completion := Normal | Raises (e : exn).

(** ** [int(len(players) * fraction_kept)]

    [fraction_kept] is a Python float, a binary64 number: the product is
    rounded to the nearest binary64 number, and [int] cuts what is left of
    it after the point. *)

(** The conversion of the left operand of [int * float]: the nearest
    binary64 number, and [OverflowError] for an integer beyond the range. *)
Definition float_of_int (n : Z) : float + exn :=
  match binary_normalize prec emax n 0 false with
  | S754_infinity _ => inr OverflowError
  | x => inl (SF2Prim x)
  end.

(** [int(x)] rounds towards zero, and raises on the infinities and on the
    floats that are not numbers. *)
Definition int_of_float (x : float) : Z + exn :=
  match Prim2SF x with
  | S754_zero _ => inl 0%Z
  | S754_finite negative m e =>
      let magnitude := Z.shiftl (Z.pos m) e in
      inl (if negative then - magnitude else magnitude)%Z
  | S754_infinity _ => inr OverflowError
  | S754_nan => inr ValueError
  end.

(** The bound of the slice of line 102, for [n] players. *)
Definition cut_bound (n : nat) (fraction_kept : float) : Z + exn :=
  match float_of_int (Z.of_nat n) with
  | inl x => int_of_float (x * fraction_kept)%float
  | inr e => inr e
  end.

(** The rational a finite float stands for. *)
Definition float_value (x : float) : Q :=
  match Prim2SF x with
  | S754_finite negative m e =>
      (inject_Z (if negative then Z.neg m else Z.pos m) * Qpower 2 e)%Q
  | _ => 0%Q
  end.

(** ** [players.sort(reverse=True)] and the slice *)

Section Sort.

Variable A : Type.
(** Modelled from the spec: players compare by rating ("a total-orderable
    skill rating"); the comparison itself is [NNPlayer.__lt__]. *)
Variable key : A -> Z.

(** Python's sort is stable, also with [reverse=True]: players of equal
    rating keep their order. *)
Fixpoint insert_reverse (x : A) (l : list A) : list A :=
  match l with
  | [] => [x]
  | y :: l' => if (key x <? key y)%Z then y :: insert_reverse x l' else x :: l
  end.

Fixpoint sort_reverse (l : list A) : list A :=
  match l with
  | [] => []
  | x :: l' => insert_reverse x (sort_reverse l')
  end.

(** [l[:k]]: a negative [k] counts from the end. *)
Definition slice_to (k : Z) (l : list A) : list A :=
  if (k <? 0)%Z then firstn (Z.to_nat (Z.of_nat (length l) + k)) l
  else firstn (Z.to_nat k) l.

(** Lines 101-102 of [train], with ratings that do not change meanwhile:
    [players.sort(reverse=True); players = players[:int(len(players) * fraction_kept)]].
    The sort is in place: when the bound of the slice raises, [players] is
    the sorted list. *)
Definition select (fraction_kept : float) (players : list A) : completion * list A :=
  let players := sort_reverse players in
  match cut_bound (length players) fraction_kept with
  | inl k => (Normal, slice_to k players)
  | inr e => (Raises e, players)
  end.

(** Descending order of rating. *)
Definition descending (l : list A) : Prop :=
  StronglySorted (fun x y => (key y <= key x)%Z) l.

Fixpoint descendingb (l : list A) : bool :=
  match l with
  | [] => true
  | x :: l' => forallb (fun y => (key y <=? key x)%Z) l' && descendingb l'
  end.

End Sort.

Arguments insert_reverse {A}.
Arguments sort_reverse {A}.
Arguments slice_to {A}.
Arguments select {A}.
Arguments descending {A}.
Arguments descendingb {A}.

(** ** Refilling the population *)

(** [random.choice(l)]: the element at a random index, [IndexError] ([None])
    on an empty list.  [r] is the number the generator supplies. *)
Definition choice {A : Type} (r : nat) (l : list A) : option A :=
  nth_error l (r mod length l).

Section Reproduce.

Variable initial_elo : Z.
Variable mutation_rate : Q.

(** Lines 104-111 of [train], by recursion on the number of missing
    players, [population_size - len(players)]: the loop test
    [len(players) < population_size] holds exactly while that number is
    positive, and each turn appends one player.  [i] is the loop's parity
    counter: the source sets it to 0 before the loop and never changes it.
    The result carries the store and the value of [players] at the end,
    also when a statement raises. *)
Fixpoint reproduce (missing : nat) (i : nat) (rnd : list nat)
    (h : store) (players : list ref) : completion * store * list ref :=
  match missing with
  | O => (Normal, h, players)
  | S missing' =>
      if i mod 2 =? 0 then
        match choice (hd 0 rnd) players with
        | None => (Raises IndexError, h, players)
        | Some parent =>
            let (new_player, h1) := copy parent h in
            let h2 := mutate mutation_rate new_player h1 in
            reproduce missing' i (tl rnd) h2 (players ++ [new_player])
        end
      else
        let (new_player, h1) := NNPlayer_new initial_elo h in
        reproduce missing' i rnd h1 (players ++ [new_player])
  end.

(** Lines 101-111 of [train], run while no rating changes: one
    generation's selection and refill. *)
Definition evolve (population_size : Z) (fraction_kept : float)
    (rnd : list nat) (h : store) (players : list ref)
    : completion * store * list ref :=
  match select (elo_of h) fraction_kept players with
  | (Normal, players) =>
      let i := 0 in
      reproduce (Z.to_nat (population_size - Z.of_nat (length players))) i rnd h players
  | (Raises e, players) => (Raises e, h, players)
  end.

End Reproduce.

(** ** [train] and [trainer_thread] as a transition system *)

(** The arguments of [train]. *)
Record config := mkConfig {
  population_size : Z;
  fraction_kept : float;
  generations : nat;
  sub_generations : nat;
  mutation_rate : Q;
  threads : nat
}.

(** Where a [trainer_thread] stands. *)
Inductive thread_pc :=
| AtQuitTest                       (* line 27: while not quit_event.is_set() *)
| AtSizeTest                       (* line 28: while queue.qsize() > 1 *)
| AtAcquire                        (* line 29: with queue_lock *)
| AtRecheck                        (* line 30: if queue.qsize() < 2, lock held *)
| AtGetOne                         (* line 32: player_one = queue.get(), lock held *)
| AtGetTwo (player_one : ref)      (* line 33: player_two = queue.get(), lock held *)
| AtPlay (player_one player_two : ref) (* lines 34-35, lock released *)
| Quit                             (* line 37: returned *)
| Crashed (e : exn).               (* ended by an exception nobody caught *)

(** Where the main thread stands in [train] and in the [run_generation] it
    calls; [players] is the local variable of that name. *)
Inductive driver_pc :=
| Called                                            (* line 83 *)
| Starting (players : list ref) (thread_id : nat)   (* lines 92-96 *)
| GenerationHead (players : list ref) (generation : nat)      (* lines 98-99 *)
| SubGenerationHead (players : list ref) (generation sub_generation : nat) (* line 53 *)
| Shuffling (players : list ref) (generation sub_generation : nat)         (* line 54 *)
| Enqueueing (players : list ref) (generation sub_generation : nat)
    (rest : list ref)                               (* lines 55-56 *)
| Draining (players : list ref) (generation sub_generation : nat)          (* lines 58-59 *)
| Selecting (players : list ref) (generation : nat) (* lines 60, 100-101 *)
| Cutting (players : list ref) (generation : nat)   (* lines 102-103 *)
| Refilling (players : list ref) (generation : nat) (i : nat)  (* lines 104-111 *)
| Finally (players : list ref) (pending : option exn)          (* line 113 *)
| Joining (players : list ref) (pending : option exn) (n : nat) (* lines 114-115 *)
| Returned (players : list ref)                     (* line 116 *)
| Failed (e : exn).                                 (* line 84: raised to the caller *)

Record state := mkState {
  heap : store;
  player_queue : list ref;
  quit_event : bool;
  queue_lock : bool;
  live_threads : list thread_pc;
  driver : driver_pc
}.

(** The state in which [train] is called. *)
Definition initial : state := mkState [] [] false false [] Called.

Definition set_heap (h : store) (s : state) : state :=
  mkState h (player_queue s) (quit_event s) (queue_lock s) (live_threads s) (driver s).
Definition set_queue (q : list ref) (s : state) : state :=
  mkState (heap s) q (quit_event s) (queue_lock s) (live_threads s) (driver s).
Definition set_quit (b : bool) (s : state) : state :=
  mkState (heap s) (player_queue s) b (queue_lock s) (live_threads s) (driver s).
Definition set_lock (b : bool) (s : state) : state :=
  mkState (heap s) (player_queue s) (quit_event s) b (live_threads s) (driver s).
Definition set_threads (ts : list thread_pc) (s : state) : state :=
  mkState (heap s) (player_queue s) (quit_event s) (queue_lock s) ts (driver s).
Definition set_driver (d : driver_pc) (s : state) : state :=
  mkState (heap s) (player_queue s) (quit_event s) (queue_lock s) (live_threads s) d.
Definition set_thread (i : nat) (w : thread_pc) (s : state) : state :=
  set_threads (update i w (live_threads s)) s.

(** What [Board(player_one, player_two).play()] followed by
    [NNPlayer.update_elo] does: it leaves the two players with new ratings, or
    it raises.  [board.py] and the rating formula are outside the sources;
    the result is the environment's choice. *)
Inductive outcome :=
| Rated (elo_one elo_two : Z)
| Erred.

(** One atomic step of one thread. *)
Inductive label :=
| Main                               (* the main thread *)
| MainShuffle (order : list ref)     (* ... at [shuffle(players)], which yields [order] *)
| MainSort (order : list ref)        (* ... at [players.sort(reverse=True)] *)
| MainRefill (r : nat)               (* ... through one turn of the loop of lines 104-111,
                                        [choice] drawing [r] *)
| Thread (i : nat)                   (* thread [i] *)
| ThreadMatch (i : nat) (o : outcome). (* ... through lines 34-35 with result [o] *)

Fixpoint remove_one (x : nat) (l : list nat) : option (list nat) :=
  match l with
  | [] => None
  | y :: l' => if x =? y then Some l'
               else match remove_one x l' with
                    | Some r => Some (y :: r)
                    | None => None
                    end
  end.

(** [shuffle] reorders the list and does nothing else. *)
Fixpoint is_permutation (l1 l2 : list nat) : bool :=
  match l1 with
  | [] => match l2 with [] => true | _ :: _ => false end
  | x :: l1' => match remove_one x l2 with
                | Some l2' => is_permutation l1' l2'
                | None => false
                end
  end.

Definition terminated (w : thread_pc) : bool :=
  match w with
  | Quit | Crashed _ => true
  | _ => false
  end.

(** The thread is outside lines 32-35: it holds no player and plays no
    match. *)
Definition between_matches (w : thread_pc) : bool :=
  match w with
  | AtGetOne | AtGetTwo _ | AtPlay _ _ => false
  | _ => true
  end.

(** No match is running and none can start before the main thread
    enqueues again: every thread is outside lines 32-35 and the queue holds
    fewer than two players.  No rating changes while this lasts. *)
Definition quiescent (s : state) : bool :=
  forallb between_matches (live_threads s) && (length (player_queue s) <? 2).

Section Steps.

Variable initial_elo : Z.
Variable c : config.

(** The main thread: [train], with [run_generation] inlined at its call.

    [players.sort(reverse=True)] compares ratings while the threads run.
    In a quiescent state the ratings are fixed and the result is the stable
    descending sort.  Otherwise a match may end between two comparisons, and
    the sort then leaves some rearrangement of the list: [order], the
    scheduler's choice.

    One turn of the refilling loop is one step: the objects it touches are
    the new player, which no thread can reach, and the parent, whose rating
    it reads once. *)
Definition main_step (l : label) (s : state) : option state :=
  match driver s, l with
  | Called, Main =>
      if negb (population_size c mod 2 =? 0)%Z
      then Some (set_driver (Failed OddPopulationError) s)
      else
        let (players, h) := new_players initial_elo (Z.to_nat (population_size c)) (heap s) in
        Some (set_driver (Starting players 0) (set_heap h s))
  | Starting players thread_id, Main =>
      if thread_id <? threads c
      then Some (set_driver (Starting players (S thread_id))
                   (set_threads (live_threads s ++ [AtQuitTest]) s))
      else Some (set_driver (GenerationHead players 0) s)
  | GenerationHead players generation, Main =>
      if generation <? generations c
      then match players with
           | [] => Some (set_driver (Finally players (Some IndexError)) s)
           | _ :: _ => Some (set_driver (SubGenerationHead players generation 0) s)
           end
      else Some (set_driver (Finally players None) s)
  | SubGenerationHead players generation sub_generation, Main =>
      if sub_generation <? sub_generations c
      then Some (set_driver (Shuffling players generation sub_generation) s)
      else Some (set_driver (Selecting players generation) s)
  | Shuffling players generation sub_generation, MainShuffle order =>
      if is_permutation order players
      then Some (set_driver (Enqueueing order generation sub_generation order) s)
      else None
  | Enqueueing players generation sub_generation rest, Main =>
      match rest with
      | player :: rest' =>
          Some (set_driver (Enqueueing players generation sub_generation rest')
                  (set_queue (player_queue s ++ [player]) s))
      | [] => Some (set_driver (Draining players generation sub_generation) s)
      end
  | Draining players generation sub_generation, Main =>
      if 1 <? length (player_queue s)
      then Some s
      else Some (set_driver (SubGenerationHead players generation (S sub_generation)) s)
  | Selecting players generation, MainSort order =>
      if quiescent s
      then Some (set_driver (Cutting (sort_reverse (elo_of (heap s)) players) generation) s)
      else if is_permutation order players
           then Some (set_driver (Cutting order generation) s)
           else None
  | Cutting players generation, Main =>
      match cut_bound (length players) (fraction_kept c) with
      | inl k =>
          let i := 0 in
          Some (set_driver (Refilling (slice_to k players) generation i) s)
      | inr e => Some (set_driver (Finally players (Some e)) s)
      end
  | Refilling players generation i, MainRefill r =>
      if (Z.of_nat (length players) <? population_size c)%Z
      then
        if i mod 2 =? 0 then
          match choice r players with
          | None => Some (set_driver (Finally players (Some IndexError)) s)
          | Some parent =>
              let (new_player, h1) := copy parent (heap s) in
              let h2 := mutate (mutation_rate c) new_player h1 in
              Some (set_driver (Refilling (players ++ [new_player]) generation i)
                      (set_heap h2 s))
          end
        else
          let (new_player, h1) := NNPlayer_new initial_elo (heap s) in
          Some (set_driver (Refilling (players ++ [new_player]) generation i)
                  (set_heap h1 s))
      else Some (set_driver (GenerationHead players (S generation)) s)
  | Finally players pending, Main =>
      Some (set_driver (Joining players pending 0) (set_quit true s))
  | Joining players pending n, Main =>
      match nth_error (live_threads s) n with
      | Some w => if terminated w
                  then Some (set_driver (Joining players pending (S n)) s)
                  else None
      | None => Some (set_driver (Returned players) s)
      end
  | _, _ => None
  end.

(** Thread [i]: [trainer_thread].  [o] is the result of the match when the
    step is the match. *)
Definition thread_step (i : nat) (o : option outcome) (s : state) : option state :=
  match nth_error (live_threads s) i with
  | None => None
  | Some w =>
      match w, o with
      | AtQuitTest, None =>
          Some (set_thread i (if quit_event s then Quit else AtSizeTest) s)
      | AtSizeTest, None =>
          Some (set_thread i (if 1 <? length (player_queue s) then AtAcquire else AtQuitTest) s)
      | AtAcquire, None =>
          if queue_lock s then None
          else Some (set_thread i AtRecheck (set_lock true s))
      | AtRecheck, None =>
          if length (player_queue s) <? 2
          then Some (set_thread i AtQuitTest (set_lock false s))
          else Some (set_thread i AtGetOne s)
      | AtGetOne, None =>
          match player_queue s with
          | player_one :: q => Some (set_thread i (AtGetTwo player_one) (set_queue q s))
          | [] => None
          end
      | AtGetTwo player_one, None =>
          match player_queue s with
          | player_two :: q =>
              Some (set_thread i (AtPlay player_one player_two)
                      (set_lock false (set_queue q s)))
          | [] => None
          end
      | AtPlay player_one player_two, Some (Rated elo_one elo_two) =>
          Some (set_thread i AtSizeTest
                  (set_heap (set_elo player_two elo_two
                               (set_elo player_one elo_one (heap s))) s))
      | AtPlay _ _, Some Erred =>
          Some (set_thread i (Crashed MatchError) s)
      | _, _ => None
      end
  end.

Definition step (l : label) (s : state) : option state :=
  match l with
  | Main | MainShuffle _ | MainSort _ | MainRefill _ => main_step l s
  | Thread i => thread_step i None s
  | ThreadMatch i o => thread_step i (Some o) s
  end.

(** A schedule, step by step; [None] when a step of it cannot be taken. *)
Fixpoint run (ls : list label) (s : state) : option state :=
  match ls with
  | [] => Some s
  | l :: ls' => match step l s with
                | Some s' => run ls' s'
                | None => None
                end
  end.

Inductive reachable : state -> Prop :=
| reachable_initial : reachable initial
| reachable_step s l s' : reachable s -> step l s = Some s' -> reachable s'.

End Steps.

(** ** The locked section of [trainer_thread] *)

(** The lines under [with queue_lock] (30, 32, 33). *)
Definition in_critical_section (w : thread_pc) : bool :=
  match w with
  | AtRecheck | AtGetOne | AtGetTwo _ => true
  | _ => false
  end.

(** How many threads are inside the locked section. *)
Definition holders (ws : list thread_pc) : nat :=
  length (filter in_critical_section ws).


(** A thread about to call [queue.get()] finds enough players queued for the
    calls it still has to make. *)
Definition queue_suffices (n : nat) (w : thread_pc) : Prop :=
  match w with
  | AtGetOne => 2 <= n
  | AtGetTwo _ => 1 <= n
  | _ => True
  end.

Definition lock_invariant (s : state) : Prop :=
  holders (live_threads s) = (if queue_lock s then 1 else 0) /\
  Forall (queue_suffices (length (player_queue s))) (live_threads s).


(** ** Shutdown *)

(** The main thread is past line 113, where it sets [quit_event]. *)
Definition past_finally (d : driver_pc) : bool :=
  match d with
  | Joining _ _ _ | Returned _ => true
  | _ => false
  end.

(** The threads the main thread has joined so far have ended. *)
Definition joined (d : driver_pc) (ws : list thread_pc) : Prop :=
  match d with
  | Joining _ _ n => Forall (fun w => terminated w = true) (firstn n ws)
  | Returned _ => Forall (fun w => terminated w = true) ws
  | _ => True
  end.

Definition shutdown_invariant (s : state) : Prop :=
  quit_event s = past_finally (driver s) /\
  joined (driver s) (live_threads s) /\
  Forall (fun w => w = Quit -> quit_event s = true) (live_threads s).

(** ** The wait at the end of a sub-generation *)

(** How many players the queue may hold: those of the sub-generation being
    enqueued, and one more. *)
Definition drain_invariant (s : state) : Prop :=
  match driver s with
  | Enqueueing players _ _ rest =>
      length (player_queue s) + length rest <= length players + 1
  | Draining players _ _ =>
      length (player_queue s) <= length players + 1
  | _ => length (player_queue s) <= 1
  end.

(** ** What [train] raises and returns *)

(** [train] raises to its caller only at line 84, before it has built
    anything. *)
Definition raise_invariant (c : config) (s : state) : Prop :=
  match driver s with
  | Called => s = initial
  | Failed e =>
      e = OddPopulationError /\ (population_size c mod 2)%Z <> 0%Z /\
      s = set_driver (Failed OddPopulationError) initial
  | _ => (population_size c mod 2)%Z = 0%Z
  end.

(** *** The sort a returned population went through last *)

Definition is_sort (l : label) : bool :=
  match l with
  | MainSort _ => true
  | _ => false
  end.

(** The schedule has no step through line 101. *)
Definition no_sort (ls : list label) : bool :=
  forallb (fun l => negb (is_sort l)) ls.

(** [ranked] is what the sort of line 101, started in [s1] on [players],
    may have left: a rearrangement, and the stable descending sort by the
    ratings of [s1] when [s1] is quiescent. *)
Definition ranked_from (s1 : state) (players ranked : list ref) : Prop :=
  Permutation ranked players /\
  (quiescent s1 = true -> ranked = sort_reverse (elo_of (heap s1)) players).

(** Every player of [added] is, in [h], a copy mutated once at [rate] of
    a player of [players] created before it. *)
Definition mutated_copies (rate : Q) (h : store) (players added : list ref) : Prop :=
  forall r, In r added ->
    exists parent x,
      nth_error h r = Some x /\
      copied_from x = Some parent /\ mutated x = [rate] /\
      In parent players /\ parent < r.

(** [result] is the cut of [ranked] followed by the [j] players created
    since the store held [first_new] objects, in the order of their
    creation, all of them mutated copies; nobody was created when the cut
    kept nobody. *)
Definition refill_of (c : config) (first_new : nat) (ranked : list ref)
    (h : store) (result : list ref) : Prop :=
  exists k j,
    cut_bound (length ranked) (fraction_kept c) = inl k /\
    result = slice_to k ranked ++ seq first_new j /\
    length h = first_new + j /\
    (slice_to k ranked = [] -> j = 0) /\
    mutated_copies (mutation_rate c) h result (seq first_new j).

(** What a selection leaves in [players] when it is the last: the whole
    sorted list when the bound of the slice raised, and the cut with its
    refill otherwise. *)
Definition selection_outcome (c : config) (first_new : nat) (ranked : list ref)
    (h : store) (result : list ref) : Prop :=
  (exists e, cut_bound (length ranked) (fraction_kept c) = inr e /\
             result = ranked /\ length h = first_new) \/
  refill_of c first_new ranked h result.

(** Since [s1] no rating has changed, if [s1] was quiescent. *)
Definition calm_since (s1 s : state) : Prop :=
  quiescent s1 = true ->
  quiescent s = true /\
  forall r, r < length (heap s1) -> elo_of (heap s) r = elo_of (heap s1) r.

(** The states after the sort that started in [s1], on [players] in
    generation [generation], as long as no other sort follows: the main
    thread is at the cut, in the refill, at the head of the next generation
    or in the [finally] block with what that selection left, or it is on its
    way to the next sort. *)
Definition after_sort (c : config) (s1 : state) (players : list ref)
    (generation : nat) (s : state) : Prop :=
  match driver s with
  | Called | Starting _ _ | Failed _ => False
  | SubGenerationHead _ _ _ | Shuffling _ _ _ | Enqueueing _ _ _ _
  | Draining _ _ _ | Selecting _ _ => True
  | Cutting ranked g =>
      calm_since s1 s /\ g = generation /\
      ranked_from s1 players ranked /\ length (heap s) = length (heap s1)
  | Refilling result g i =>
      calm_since s1 s /\ g = generation /\ i = 0 /\
      exists ranked, ranked_from s1 players ranked /\
                     refill_of c (length (heap s1)) ranked (heap s) result
  | GenerationHead result g =>
      calm_since s1 s /\ g = S generation /\
      exists ranked, ranked_from s1 players ranked /\
                     refill_of c (length (heap s1)) ranked (heap s) result
  | Finally result _ | Joining result _ _ | Returned result =>
      calm_since s1 s /\
      exists ranked, ranked_from s1 players ranked /\
                     selection_outcome c (length (heap s1)) ranked (heap s) result
  end.

(** The states of a run in which line 101 has not been reached: [players]
    is the list line 88 built, and the generations are over only if there
    was none to run or nobody to train. *)
Definition before_sort (c : config) (s : state) : Prop :=
  match driver s with
  | Called => heap s = []
  | Starting players _ => players = seq 0 (Z.to_nat (population_size c))
  | GenerationHead players generation =>
      players = seq 0 (Z.to_nat (population_size c)) /\ generation = 0
  | Cutting _ _ | Refilling _ _ _ => False
  | Finally players _ | Joining players _ _ | Returned players =>
      players = seq 0 (Z.to_nat (population_size c)) /\
      (generations c = 0 \/ (population_size c <= 0)%Z)
  | _ => True
  end.

(** ** The size of the population *)

(** The value of [players] while the generations run. *)
Definition population_of (d : driver_pc) : option (list ref) :=
  match d with
  | Starting players _
  | GenerationHead players _
  | SubGenerationHead players _ _
  | Shuffling players _ _
  | Enqueueing players _ _ _
  | Draining players _ _
  | Selecting players _ => Some players
  | _ => None
  end.

(** The value of [players] between the sort and the end of the refill. *)
Definition selection_of (d : driver_pc) : option (list ref) :=
  match d with
  | Cutting players _ | Refilling players _ _ => Some players
  | _ => None
  end.

(** The players the loop of lines 55-56 has not put on the queue yet. *)
Definition to_enqueue (d : driver_pc) : list ref :=
  match d with
  | Enqueueing _ _ _ rest => rest
  | _ => []
  end.

Definition size_invariant (c : config) (s : state) : Prop :=
  (forall players, population_of (driver s) = Some players ->
     length players = Z.to_nat (population_size c)) /\
  length (to_enqueue (driver s)) <= Z.to_nat (population_size c) /\
  match driver s with
  | Cutting players _ => length players = Z.to_nat (population_size c)
  | Refilling players _ _ => length players <= Z.to_nat (population_size c)
  | _ => True
  end.

(** Where the refill stands: [players] is the cut of a list of
    [population_size] players followed by the players appended so far, none
    of them when the cut kept nobody; and the parity counter is 0. *)
Definition refill_invariant (c : config) (s : state) : Prop :=
  match driver s with
  | Refilling players _ i =>
      i = 0 /\
      exists k ranked added,
        length ranked = Z.to_nat (population_size c) /\
        cut_bound (length ranked) (fraction_kept c) = inl k /\
        players = slice_to k ranked ++ added /\
        (slice_to k ranked = [] -> added = [])
  | _ => True
  end.

(** ** The threads [train] starts *)

(** As many threads as the loop of lines 92-96 has started. *)
Definition threads_invariant (c : config) (s : state) : Prop :=
  match driver s with
  | Called | Failed _ => live_threads s = []
  | Starting _ thread_id =>
      length (live_threads s) = thread_id /\ thread_id <= threads c
  | _ => length (live_threads s) = threads c
  end.

(** ** The two ways the generations end *)

(** With a survivor in every selection: no exception is pending when the
    generations are over, and [players] is complete. *)
Definition complete_invariant (c : config) (s : state) : Prop :=
  match driver s with
  | Finally players pending | Joining players pending _ =>
      pending = None /\ length players = Z.to_nat (population_size c)
  | Returned players => length players = Z.to_nat (population_size c)
  | _ => True
  end.

(** With no survivor: the first generation is the last, and it leaves
    [players] empty. *)
Definition extinct_invariant (s : state) : Prop :=
  match driver s with
  | GenerationHead _ generation
  | SubGenerationHead _ generation _
  | Shuffling _ generation _
  | Enqueueing _ generation _ _
  | Draining _ generation _
  | Selecting _ generation
  | Cutting _ generation => generation = 0
  | Refilling players generation _ => generation = 0 /\ players = []
  | Finally players pending | Joining players pending _ =>
      players = [] /\ pending = Some IndexError
  | Returned players => players = []
  | _ => True
  end.

(** ** Players taken in pairs *)

(** The thread has made the first [get] of a pair and not the second. *)
Definition between_gets (w : thread_pc) : bool :=
  match w with
  | AtGetTwo _ => true
  | _ => false
  end.

(** How many threads hold a single player. *)
Definition singles (ws : list thread_pc) : nat :=
  length (filter between_gets ws).

(** The players that still have to find their way into a match: those
    queued, those the main thread is about to enqueue, and one for each
    thread that holds the first player of a pair. *)
Definition unpaired (s : state) : nat :=
  length (player_queue s) + singles (live_threads s) + length (to_enqueue (driver s)).

(** ** A run without threads *)

(** With [threads=0] nobody takes a player off the queue: the main thread
    gets as far as the first wait and stays there. *)
Definition idle_invariant (s : state) : Prop :=
  live_threads s = [] /\
  match driver s with
  | Called | Starting _ _ | Shuffling _ _ _ => player_queue s = []
  | GenerationHead _ generation => generation = 0 /\ player_queue s = []
  | SubGenerationHead _ _ sub_generation =>
      sub_generation = 0 /\ player_queue s = []
  | Enqueueing players _ _ rest =>
      length (player_queue s) + length rest = length players
  | Draining players _ _ => length (player_queue s) = length players
  | _ => False
  end.

(** ** Who plays whom *)

(** Every player of the population is there once, and exists. *)
Definition valid_invariant (s : state) : Prop :=
  forall players,
    population_of (driver s) = Some players \/ selection_of (driver s) = Some players ->
    NoDup players /\ Forall (fun r => r < length (heap s)) players.

(** The player a thread holds while it waits for the second of its pair. *)
Definition first_of_pair (w : thread_pc) : list ref :=
  match w with
  | AtGetTwo player_one => [player_one]
  | _ => []
  end.

(** The players on their way into a match, in the order in which they will
    be taken: the one a thread already holds, the queue, and the players
    the main thread is about to enqueue. *)
Definition waiting_line (s : state) : list ref :=
  flat_map first_of_pair (live_threads s) ++ player_queue s ++ to_enqueue (driver s).

(** Taken two by two from the front, the list pairs no player with itself. *)
Fixpoint distinct_pairs (l : list ref) : Prop :=
  match l with
  | a :: b :: l' => a <> b /\ distinct_pairs l'
  | _ => True
  end.

Definition opponents_differ (w : thread_pc) : Prop :=
  match w with
  | AtPlay player_one player_two => player_one <> player_two
  | _ => True
  end.

Definition pairing_invariant (s : state) : Prop :=
  distinct_pairs (waiting_line s) /\ Forall opponents_differ (live_threads s).

(** ** Example runs *)

(** The rating [NNPlayer()] starts with, in the examples. *)
Definition example_elo : Z := 1500.

(** [train(2, 0.5, 1, 1, 0.5, threads=1)] *)
Definition two_players : config := mkConfig 2 0.5 1 1 (1 # 2) 1.

(** [train(2, 0.5, 1, 2, 0.5, threads=1)]: two sub-generations. *)
Definition two_rounds : config := mkConfig 2 0.5 1 2 (1 # 2) 1.

(** [train(4, 0.75, 1, 1, 0.5, threads=1)] *)
Definition four_players : config := mkConfig 4 0.75 1 1 (1 # 2) 1.

(** [train(3, 0.5, 1, 1, 0.5, threads=1)] *)
Definition three_players : config := mkConfig 3 0.5 1 1 (1 # 2) 1.

(** [train(0, 0.5, 1, 1, 0.5, threads=1)] *)
Definition no_players : config := mkConfig 0 0.5 1 1 (1 # 2) 1.

(** [train(2, 0.25, 1, 1, 0.5, threads=1)]: the selection keeps nobody. *)
Definition no_survivors : config := mkConfig 2 0.25 1 1 (1 # 2) 1.

(** [train(2, 0.5, 1, 1, 0.5, threads=0)] *)
Definition no_threads : config := mkConfig 2 0.5 1 1 (1 # 2) 0.

(** [train(2, 1e308, 1, 1, 0.5, threads=1)]: the product of line 102 is
    beyond the binary64 range. *)
Definition huge_fraction : config := mkConfig 2 0x1.1ccf385ebc8ap+1023 1 1 (1 # 2) 1.

(** [train(2, -0.5, 1, 1, 0.5, threads=1)] *)
Definition negative_fraction : config := mkConfig 2 (-0.5) 1 1 (1 # 2) 1.

(** [train(2, 1.0, 1, 1, 0.5, threads=1)] *)
Definition full_fraction : config := mkConfig 2 1 1 1 (1 # 2) 1.

(** The floats nearest to 0.3, to 0.58 and to 1/6, as Python reads [0.3]
    and [0.58] and computes [1 / 6]. *)
Definition three_tenths : float := 0x1.3333333333333p-2.
Definition fifty_eight_hundredths : float := 0x1.28f5c28f5c28fp-1.
Definition one_sixth : float := 0x1.5555555555555p-3.

(** Ten players, each standing for its rating. *)
Definition ten_players : list Z := [1; 2; 3; 4; 5; 6; 7; 8; 9; 10]%Z.

(** Six players as [NNPlayer()] makes them. *)
Definition six_new_players : store := repeat (mkNNPlayer 1500 None []) 6.

(** The main thread from the call of [train], through the start of one
    thread, to the wait of the first sub-generation, [shuffle] having left
    the players in [order]. *)
Definition enqueue_first (order : list ref) : list label :=
  [Main; Main; Main; Main; Main; MainShuffle order]
  ++ repeat Main (length order) ++ [Main].

(** Thread [i] from the test of the flag to the start of a match: both
    size tests, the lock and the two gets. *)
Definition take_pair (i : nat) : list label := repeat (Thread i) 6.

(** Thread [i] from the end of a match to the start of the next. *)
Definition take_next_pair (i : nat) : list label := repeat (Thread i) 5.

(** The main thread from the wait to the sort. *)
Definition leave_wait : list label := [Main; Main].

(** The main thread through the sort, the cut and the refill, [choice]
    drawing from [rnd], one number for each turn of the loop. *)
Definition select_and_refill (rnd : list nat) : list label :=
  [MainSort []; Main] ++ map MainRefill rnd ++ [MainRefill 0].

(** The main thread from the wait to its return, one thread to join, with
    [choice] drawing from [rnd]; the thread is let run where it must. *)
Definition finish (rnd : list nat) (thread : list label) : list label :=
  leave_wait ++ select_and_refill rnd ++ [Main; Main] ++ thread ++ [Main; Main].

(** The matches of [four_players]: the first player of each pair wins. *)
Definition four_players_matches : list label :=
  enqueue_first [0; 1; 2; 3]
  ++ take_pair 0 ++ [ThreadMatch 0 (Rated 1516 1484)]
  ++ take_next_pair 0 ++ [ThreadMatch 0 (Rated 1516 1484)].

(** A whole run of [four_players]. *)
Definition four_players_run : list label :=
  four_players_matches ++ finish [0] [Thread 0; Thread 0].

(** A whole run of [two_players] in which the only match raises. *)
Definition failed_match_run : list label :=
  enqueue_first [0; 1]
  ++ take_pair 0 ++ [ThreadMatch 0 Erred]
  ++ finish [0] [].

(** [two_players] up to the selection, the match not yet played. *)
Definition early_selection_run : list label :=
  enqueue_first [0; 1] ++ take_pair 0 ++ leave_wait.

(** [two_rounds] up to the first [put] of the second sub-generation, the
    match of the first not yet played. *)
Definition early_enqueue_run : list label :=
  enqueue_first [0; 1] ++ take_pair 0
  ++ [Main; Main; MainShuffle [1; 0]; Main].

(** A whole run of [no_survivors]: the first turn of the refill raises. *)
Definition no_survivors_run : list label :=
  enqueue_first [0; 1]
  ++ take_pair 0 ++ [ThreadMatch 0 (Rated 1516 1484)]
  ++ leave_wait ++ [MainSort []; Main; MainRefill 0]
  ++ [Main; Thread 0; Thread 0; Main; Main].

(** A whole run of [huge_fraction]: the cut raises. *)
Definition huge_fraction_run : list label :=
  enqueue_first [0; 1]
  ++ take_pair 0 ++ [ThreadMatch 0 (Rated 1484 1516)]
  ++ leave_wait ++ [MainSort []; Main]
  ++ [Main; Thread 0; Thread 0; Main; Main].

(** [no_threads] up to the wait of the first sub-generation. *)
Definition no_threads_run : list label :=
  [Main; Main; Main; Main; MainShuffle [0; 1]; Main; Main; Main].

(** Where the main thread stands when a block of the generation loop has
    ended. *)
Definition after_block (completed : completion) (players : list ref)
    (generation : nat) : driver_pc :=
  match completed with
  | Normal => GenerationHead players (S generation)
  | Raises e => Finally players (Some e)
  end.

(** The state a schedule leads to from the call of [train]. *)
Definition state_after (initial_elo : Z) (c : config) (ls : list label) : state :=
  match run initial_elo c ls initial with
  | Some s => s
  | None => initial
  end.

(** [four_players] after its whole run: [train] has returned. *)
Definition four_players_end : state :=
  Eval vm_compute in state_after example_elo four_players four_players_run.

(** [four_players] with its matches played and the main thread about to
    sort. *)
Definition four_players_selecting : state :=
  Eval vm_compute in
    state_after example_elo four_players (four_players_matches ++ leave_wait).

(** ... and about to cut. *)
Definition four_players_cutting : state :=
  Eval vm_compute in
    state_after example_elo four_players
      (four_players_matches ++ leave_wait ++ [MainSort []]).

(** ... and about to refill. *)
Definition four_players_refilling : state :=
  Eval vm_compute in
    state_after example_elo four_players
      (four_players_matches ++ leave_wait ++ [MainSort []; Main]).

(** [two_players] with the thread between its two gets. *)
Definition two_players_one_taken : state :=
  Eval vm_compute in
    state_after example_elo two_players (enqueue_first [0; 1] ++ repeat (Thread 0) 5).

(** [two_players] with the thread about to play. *)
Definition two_players_pair_taken : state :=
  Eval vm_compute in
    state_after example_elo two_players (enqueue_first [0; 1] ++ take_pair 0).

(** [two_players] with the main thread at the wait, no thread having moved. *)
Definition two_players_waiting : state :=
  Eval vm_compute in state_after example_elo two_players (enqueue_first [0; 1]).


Definition no_survivors_end : state :=
  Eval vm_compute in state_after example_elo no_survivors no_survivors_run.

(** [no_survivors] with the cut made and nobody kept. *)
Definition no_survivors_refilling : state :=
  Eval vm_compute in
    state_after example_elo no_survivors
      (enqueue_first [0; 1]
       ++ take_pair 0 ++ [ThreadMatch 0 (Rated 1516 1484)]
       ++ leave_wait ++ [MainSort []; Main]).

Definition huge_fraction_end : state :=
  Eval vm_compute in state_after example_elo huge_fraction huge_fraction_run.

(** [negative_fraction] with its match played and the main thread about to
    cut. *)
Definition negative_fraction_cutting : state :=
  Eval vm_compute in
    state_after example_elo negative_fraction
      (enqueue_first [0; 1]
       ++ take_pair 0 ++ [ThreadMatch 0 (Rated 1484 1516)]
       ++ leave_wait ++ [MainSort []]).

Definition no_threads_waiting : state :=
  Eval vm_compute in state_after example_elo no_threads no_threads_run.

(** * Proofs *)

(** ** Lists updated by index *)

Section UpdateFacts.
Context {A : Type}.
Implicit Types (l : list A) (x : A).

Lemma length_update i x l : length (update i x l) = length l.
Proof.
  revert i; induction l as [|y l IH]; intros [|i]; simpl; auto.
Qed.

Lemma nth_error_update_eq i x l y :
  nth_error l i = Some y -> nth_error (update i x l) i = Some x.
Proof.
  revert i; induction l as [|z l IH]; intros [|i]; simpl; try discriminate; auto.
Qed.

Lemma nth_error_update_neq i j x l :
  i <> j -> nth_error (update i x l) j = nth_error l j.
Proof.
  revert i j; induction l as [|z l IH]; intros [|i] [|j] Hij; simpl; auto.
  congruence.
Qed.

Lemma nth_error_update_inv i j x l y :
  nth_error (update i x l) j = Some y ->
  (j = i /\ y = x) \/ (j <> i /\ nth_error l j = Some y).
Proof.
  intros H. destruct (Nat.eq_dec i j) as [->|Hij].
  - left. split; auto.
    destruct (nth_error l j) as [z|] eqn:E.
    + rewrite (nth_error_update_eq _ x _ _ E) in H. congruence.
    + apply nth_error_None in E.
      assert (nth_error (update j x l) j = None)
        by (apply nth_error_None; rewrite length_update; exact E).
      congruence.
  - right. rewrite nth_error_update_neq in H by exact Hij. auto.
Qed.

Lemma Forall_update (P : A -> Prop) i x l :
  Forall P l -> P x -> Forall P (update i x l).
Proof.
  intros Hl Hx. revert i; induction Hl as [|y l Hy Hl IH]; intros [|i]; simpl; auto.
Qed.

Lemma Forall_nth_error (P : A -> Prop) l :
  Forall P l <-> (forall i x, nth_error l i = Some x -> P x).
Proof.
  split.
  - intros H i x E. rewrite Forall_forall in H. apply H.
    eapply nth_error_In; eauto.
  - intros H. apply Forall_forall. intros x Hx.
    apply In_nth_error in Hx. destruct Hx as [i E]. eauto.
Qed.

Lemma firstn_update_ge n i x l :
  n <= i -> firstn n (update i x l) = firstn n l.
Proof.
  revert n i; induction l as [|y l IH]; intros [|n] [|i] H; simpl; auto; try lia.
  f_equal. apply IH. lia.
Qed.
End UpdateFacts.

(** ** The sort, the slice and the selection *)

Section SortFacts.
Context {A : Type} (key : A -> Z).

Lemma insert_reverse_perm x l : Permutation (insert_reverse key x l) (x :: l).
Proof.
  induction l as [|y l IH]; simpl; auto.
  destruct (key x <? key y)%Z; auto.
  rewrite IH. apply perm_swap.
Qed.

Lemma sort_reverse_perm l : Permutation (sort_reverse key l) l.
Proof.
  induction l as [|x l IH]; simpl; auto.
  rewrite insert_reverse_perm. auto.
Qed.

Lemma sort_reverse_length l : length (sort_reverse key l) = length l.
Proof. apply Permutation_length, sort_reverse_perm. Qed.

Lemma insert_reverse_descending x l :
  descending key l -> descending key (insert_reverse key x l).
Proof.
  unfold descending.
  induction 1 as [|y l Hl IH Hy]; simpl.
  - repeat constructor.
  - destruct (key x <? key y)%Z eqn:E.
    + apply Z.ltb_lt in E. constructor; auto.
      rewrite Forall_forall in *. intros z Hz.
      apply (Permutation_in _ (insert_reverse_perm x l)) in Hz.
      destruct Hz as [<-|Hz]; auto. lia.
    + apply Z.ltb_ge in E. constructor.
      * constructor; auto.
      * constructor; auto.
        rewrite Forall_forall in *. intros z Hz. specialize (Hy z Hz). lia.
Qed.

Lemma sort_reverse_descending l : descending key (sort_reverse key l).
Proof.
  induction l as [|x l IH]; simpl.
  - constructor.
  - apply insert_reverse_descending, IH.
Qed.

Lemma descending_firstn n l : descending key l -> descending key (firstn n l).
Proof.
  unfold descending. intros H. revert n.
  induction H as [|x l Hl IH Hx]; intros [|n]; simpl; try constructor; auto.
  rewrite Forall_forall in *. intros y Hy. apply Hx.
  rewrite <- (firstn_skipn n l). apply in_or_app. auto.
Qed.

Lemma descending_split n l x y :
  descending key l -> In x (firstn n l) -> In y (skipn n l) -> (key y <= key x)%Z.
Proof.
  unfold descending. intros H. revert n.
  induction H as [|z l Hl IH Hz]; intros [|n]; simpl; try tauto.
  intros [<-|Hx] Hy.
  - rewrite Forall_forall in Hz. apply Hz.
    rewrite <- (firstn_skipn n l). apply in_or_app. auto.
  - eauto.
Qed.

Lemma descendingb_spec l : descendingb key l = true <-> descending key l.
Proof.
  unfold descending. induction l as [|x l IH]; simpl.
  - split; auto. constructor.
  - rewrite andb_true_iff, forallb_forall, IH. split.
    + intros [H1 H2]. constructor; auto.
      apply Forall_forall. intros y Hy. apply Z.leb_le. auto.
    + intros H. inversion H as [|? ? H1 H2]; subst. split; auto.
      rewrite Forall_forall in H2. intros y Hy. apply Z.leb_le. auto.
Qed.

End SortFacts.

Section SliceFacts.
Context {A : Type}.
Implicit Types (l : list A) (k : Z).

Lemma slice_to_firstn k l : (0 <= k)%Z -> slice_to k l = firstn (Z.to_nat k) l.
Proof.
  intros H. unfold slice_to. destruct (Z.ltb_spec k 0); [lia | reflexivity].
Qed.

(** A slice is a prefix, whatever its bound. *)
Lemma slice_to_prefix k l : exists n, slice_to k l = firstn n l.
Proof. unfold slice_to. destruct (k <? 0)%Z; eauto. Qed.

Lemma slice_to_zero l : slice_to 0 l = [].
Proof. reflexivity. Qed.

Lemma slice_to_length_le k l : length (slice_to k l) <= length l.
Proof.
  destruct (slice_to_prefix k l) as [n ->]. rewrite length_firstn. lia.
Qed.

Lemma slice_to_incl k l x : In x (slice_to k l) -> In x l.
Proof.
  destruct (slice_to_prefix k l) as [n ->]. intros H.
  rewrite <- (firstn_skipn n l). apply in_or_app. auto.
Qed.

Lemma slice_to_NoDup k l : NoDup l -> NoDup (slice_to k l).
Proof.
  destruct (slice_to_prefix k l) as [n ->]. intros H.
  rewrite <- (firstn_skipn n l) in H. eapply NoDup_app_remove_r; eauto.
Qed.

Lemma slice_to_nonempty k l : (1 <= k)%Z -> l <> [] -> slice_to k l <> [].
Proof.
  intros Hk Hl. rewrite slice_to_firstn by lia.
  destruct l as [|x l]; [congruence|].
  destruct (Z.to_nat k) as [|n] eqn:E; [lia|]. simpl. discriminate.
Qed.

End SliceFacts.

Lemma descending_ext {A : Type} (key key' : A -> Z) (l : list A) :
  (forall x, In x l -> key' x = key x) -> descending key l -> descending key' l.
Proof.
  unfold descending. intros Hext H.
  induction H as [|x l Hl IH Hx]; constructor.
  - apply IH. intros y Hy. apply Hext. right. exact Hy.
  - rewrite Forall_forall in *. intros y Hy.
    rewrite (Hext x), (Hext y) by (simpl; auto). auto.
Qed.

(** What [select] returns, by the bound of the slice. *)
Lemma select_cut {A : Type} (key : A -> Z) (fraction_kept : float) (players : list A) :
  select key fraction_kept players =
  match cut_bound (length players) fraction_kept with
  | inl k => (Normal, slice_to k (sort_reverse key players))
  | inr e => (Raises e, sort_reverse key players)
  end.
Proof. unfold select. rewrite sort_reverse_length. reflexivity. Qed.

(** ** The refill *)

Lemma choice_nonempty {A : Type} (r : nat) (l : list A) :
  l <> [] -> exists x, choice r l = Some x /\ In x l.
Proof.
  intros Hl. unfold choice.
  assert (Hlen : length l <> 0) by (destruct l; simpl; congruence).
  destruct (nth_error l (r mod length l)) as [x|] eqn:E.
  - exists x. split; auto. eapply nth_error_In; eauto.
  - apply nth_error_None in E.
    pose proof (Nat.mod_upper_bound r (length l) Hlen). lia.
Qed.

Lemma choice_empty {A : Type} (r : nat) : choice r (@nil A) = None.
Proof. unfold choice. apply nth_error_None. simpl. lia. Qed.

Lemma choice_In {A : Type} (r : nat) (l : list A) x : choice r l = Some x -> In x l.
Proof. unfold choice. apply nth_error_In. Qed.

Lemma choice_none {A : Type} (r : nat) (l : list A) : choice r l = None -> l = [].
Proof.
  intros H. destruct l as [|x l]; auto.
  destruct (choice_nonempty r (x :: l)) as [y [E _]]; congruence.
Qed.

Lemma set_elo_length r e h : length (set_elo r e h) = length h.
Proof.
  unfold set_elo. destruct (nth_error h r); auto. apply length_update.
Qed.

Lemma set_elo_other r e h r' :
  r' <> r -> nth_error (set_elo r e h) r' = nth_error h r'.
Proof.
  intros Hne. unfold set_elo. destruct (nth_error h r); auto.
  apply nth_error_update_neq. auto.
Qed.

(** A match changes ratings and nothing else of a player. *)
Lemma set_elo_provenance r e h r' x :
  nth_error h r' = Some x ->
  exists x', nth_error (set_elo r e h) r' = Some x' /\
             copied_from x' = copied_from x /\ mutated x' = mutated x.
Proof.
  intros H. destruct (Nat.eq_dec r' r) as [->|Hne].
  - unfold set_elo. rewrite H.
    rewrite (nth_error_update_eq _ _ _ _ H). eexists. split; [reflexivity|]. auto.
  - rewrite set_elo_other by exact Hne. eauto.
Qed.

Lemma mutate_length rate p h : length (mutate rate p h) = length h.
Proof.
  unfold mutate. destruct (nth_error h p); auto. apply length_update.
Qed.

(** One turn of the refill: the copy is appended to the store and mutated
    there; the objects that existed are left as they were. *)
Lemma copy_mutate_store rate parent h :
  let h' := mutate rate (length h) (h ++ [mkNNPlayer (elo_of h parent) (Some parent) []]) in
  length h' = S (length h) /\
  (forall r, r < length h -> nth_error h' r = nth_error h r) /\
  nth_error h' (length h) = Some (mkNNPlayer (elo_of h parent) (Some parent) [rate]).
Proof.
  cbv zeta. unfold mutate.
  rewrite nth_error_app2, Nat.sub_diag by lia. cbn [nth_error elo copied_from mutated].
  rewrite length_update, length_app. cbn [length]. split; [lia|]. split.
  - intros r Hr. rewrite nth_error_update_neq by lia. apply nth_error_app1. exact Hr.
  - eapply nth_error_update_eq. rewrite nth_error_app2, Nat.sub_diag by lia. reflexivity.
Qed.

Section ReproduceFacts.
Variable initial_elo : Z.
Variable rate : Q.

(** The objects that exist when the refill starts are not changed by it. *)
Lemma reproduce_keeps_store m :
  forall i rnd h players c h' players',
    reproduce initial_elo rate m i rnd h players = (c, h', players') ->
    length h <= length h' /\
    forall r, r < length h -> nth_error h' r = nth_error h r.
Proof.
  induction m as [|m IH]; intros i rnd h players c h' players' H;
    cbn [reproduce copy NNPlayer_new] in H.
  - inversion H; subst. auto.
  - destruct (i mod 2 =? 0).
    + destruct (choice (hd 0 rnd) players) as [parent|].
      * apply IH in H. destruct H as [Hlen Hold].
        unfold mutate in *.
        rewrite nth_error_app2, Nat.sub_diag in * by lia. cbn [nth_error] in *.
        rewrite length_update, length_app in *. cbn [length] in *.
        split; [lia|]. intros r Hr.
        rewrite Hold by lia.
        rewrite nth_error_update_neq by lia.
        apply nth_error_app1. exact Hr.
      * inversion H; subst. auto.
    + apply IH in H. destruct H as [Hlen Hold].
      rewrite length_app in *. cbn [length] in *.
      split; [lia|]. intros r Hr.
      rewrite Hold by lia. apply nth_error_app1. exact Hr.
Qed.

(** Started on a list that is not empty, the loop ends normally, having
    appended the missing players: no [choice] is made on an empty list. *)
Lemma reproduce_nonempty m :
  forall rnd h players,
    players <> [] ->
    exists h' added,
      reproduce initial_elo rate m 0 rnd h players = (Normal, h', players ++ added) /\
      length added = m.
Proof.
  induction m as [|m IH]; intros rnd h players Hne.
  - exists h, []. rewrite app_nil_r. auto.
  - cbn [reproduce]. change (0 mod 2 =? 0) with true. cbv iota.
    destruct (choice_nonempty (hd 0 rnd) players Hne) as [parent [-> _]].
    cbn [copy].
    destruct (IH (tl rnd)
                (mutate rate (length h) (h ++ [mkNNPlayer (elo_of h parent) (Some parent) []]))
                (players ++ [length h])) as [h' [added [E Hlen]]].
    { destruct players; simpl; congruence. }
    exists h', (length h :: added). split.
    * rewrite <- app_assoc in E. exact E.
    * simpl. lia.
Qed.

(** Started on the empty list with a player missing, the loop stops at its
    first [choice], which raises. *)
Lemma reproduce_empty m rnd h :
  reproduce initial_elo rate (S m) 0 rnd h [] = (Raises IndexError, h, []).
Proof.
  cbn [reproduce]. change (0 mod 2 =? 0) with true. cbv iota.
  rewrite choice_empty. reflexivity.
Qed.

(** Every player the loop appends is a copy of a player of the list,
    mutated once at [rate]: the loop never takes the branch that calls
    [NNPlayer()]. *)
Lemma reproduce_appends_copies m :
  forall rnd h players c h' players',
    reproduce initial_elo rate m 0 rnd h players = (c, h', players') ->
    exists added,
      players' = players ++ added /\
      forall r, In r added ->
        length h <= r /\
        exists parent x,
          nth_error h' r = Some x /\
          copied_from x = Some parent /\ mutated x = [rate] /\
          In parent players'.
Proof.
  induction m as [|m IH]; intros rnd h players c h' players' H.
  - inversion H; subst. exists []. rewrite app_nil_r. split; auto.
    intros r [].
  - cbn [reproduce] in H. change (0 mod 2 =? 0) with true in H. cbv iota in H.
    destruct (choice (hd 0 rnd) players) as [parent|] eqn:Ec.
    + cbn [copy] in H.
      pose proof (reproduce_keeps_store _ _ _ _ _ _ _ _ H) as [Hlen Hold].
      apply IH in H. destruct H as [added [-> Hadded]].
      exists (length h :: added). rewrite <- app_assoc. split; [reflexivity|].
      unfold mutate in *.
      rewrite nth_error_app2, Nat.sub_diag in * by lia. cbn [nth_error] in *.
      rewrite length_update, length_app in *. cbn [length] in *.
      intros r [<-|Hr].
      * split; [lia|].
        exists parent, (mkNNPlayer (elo_of h parent) (Some parent) [rate]).
        rewrite Hold by lia.
        rewrite (nth_error_update_eq _ _ _ (mkNNPlayer (elo_of h parent) (Some parent) [])).
        2:{ rewrite nth_error_app2, Nat.sub_diag by lia. reflexivity. }
        repeat split; auto.
        apply in_or_app. left.
        unfold choice in Ec. eapply nth_error_In; eauto.
      * destruct (Hadded r Hr) as [Hge (p & x & H1 & H2 & H3 & H4)].
        split; [lia|]. exists p, x. repeat split; auto.
        rewrite <- app_assoc in H4. exact H4.
    + inversion H; subst. exists []. rewrite app_nil_r. split; auto.
      intros r [].
Qed.

End ReproduceFacts.

(** ** The players [train] starts with *)

Lemma new_players_length initial_elo n :
  forall h players h',
    new_players initial_elo n h = (players, h') ->
    length players = n /\ length h' = length h + n.
Proof.
  induction n as [|n IH]; intros h players h' H; cbn [new_players NNPlayer_new] in H.
  - inversion H; subst. simpl. lia.
  - destruct (new_players initial_elo n (h ++ [mkNNPlayer initial_elo None []]))
      as [ps h2] eqn:E.
    inversion H; subst. apply IH in E. destruct E as [E1 E2].
    rewrite length_app in E2. simpl in *. lia.
Qed.

Lemma new_players_keeps_store initial_elo n :
  forall h players h',
    new_players initial_elo n h = (players, h') ->
    forall r, r < length h -> nth_error h' r = nth_error h r.
Proof.
  induction n as [|n IH]; intros h players h' H r Hr; cbn [new_players NNPlayer_new] in H.
  - inversion H; subst. reflexivity.
  - destruct (new_players initial_elo n (h ++ [mkNNPlayer initial_elo None []]))
      as [ps h2] eqn:E.
    inversion H; subst.
    rewrite (IH _ _ _ E) by (rewrite length_app; simpl; lia).
    apply nth_error_app1. exact Hr.
Qed.

Lemma new_players_fresh initial_elo n :
  forall h players h',
    new_players initial_elo n h = (players, h') ->
    players = seq (length h) n.
Proof.
  induction n as [|n IH]; intros h players h' H; cbn [new_players NNPlayer_new] in H.
  - inversion H; subst. reflexivity.
  - destruct (new_players initial_elo n (h ++ [mkNNPlayer initial_elo None []]))
      as [ps h2] eqn:E.
    inversion H; subst. apply IH in E. rewrite E, length_app. simpl.
    rewrite Nat.add_1_r. reflexivity.
Qed.

(** ** What [shuffle] may return *)

Lemma remove_one_perm x l l' :
  remove_one x l = Some l' -> Permutation l (x :: l').
Proof.
  revert l'; induction l as [|y l IH]; intros l' H; simpl in H; [discriminate|].
  destruct (Nat.eqb_spec x y) as [->|Hne].
  - inversion H; subst. reflexivity.
  - destruct (remove_one x l) as [r|]; [|discriminate].
    inversion H; subst. rewrite (IH r eq_refl). apply perm_swap.
Qed.

Lemma is_permutation_sound l1 :
  forall l2, is_permutation l1 l2 = true -> Permutation l1 l2.
Proof.
  induction l1 as [|x l1 IH]; intros l2 H; simpl in H.
  - destruct l2; [constructor | discriminate].
  - destruct (remove_one x l2) as [l2'|] eqn:E; [|discriminate].
    apply remove_one_perm in E. rewrite E. constructor. apply IH, H.
Qed.

Lemma is_permutation_refl l : is_permutation l l = true.
Proof.
  induction l as [|x l IH]; simpl; auto.
  rewrite Nat.eqb_refl. exact IH.
Qed.

Lemma NoDup_app_seq (l : list nat) (a j : nat) :
  NoDup l -> Forall (fun r => r < a) l -> NoDup (l ++ seq a j).
Proof.
  intros Hl Hlt. induction Hl as [|x l Hx Hl IH]; simpl.
  - apply seq_NoDup.
  - inversion Hlt; subst. constructor; auto.
    intros Hin. apply in_app_or in Hin. destruct Hin as [Hin|Hin]; auto.
    apply in_seq in Hin. lia.
Qed.

Lemma seq_snoc (a j : nat) : seq a (S j) = seq a j ++ [a + j].
Proof. rewrite seq_S. reflexivity. Qed.

(** ** Steps of the transition system *)

(** Case analysis of a step that was taken: every test the step made is
    decided, and the new state is written in terms of the old one. *)
Ltac invert_step H :=
  repeat match type of H with
    | context [match ?x with _ => _ end] =>
        let E := fresh "E" in destruct x eqn:E; try discriminate H
    | Some _ = Some _ => inversion H; subst; clear H
    | None = Some _ => discriminate H
    end.

(** Reading a field of a state that a step has written. *)
Ltac state_simpl :=
  cbn [heap player_queue quit_event queue_lock live_threads driver
       set_heap set_queue set_quit set_lock set_threads set_driver set_thread] in *.

(** The cases of a step of the main thread. *)
Ltac main_cases H :=
  unfold main_step in H; cbn [copy NNPlayer_new] in H; invert_step H; state_simpl.

Section StepFacts.
Variable initial_elo : Z.
Variable c : config.

(** A step is the main thread's or a thread's. *)
Lemma step_cases l s s' :
  step initial_elo c l s = Some s' ->
  main_step initial_elo c l s = Some s' \/
  exists i o, thread_step i o s = Some s' /\
              l = match o with Some r => ThreadMatch i r | None => Thread i end.
Proof.
  destruct l; cbn [step]; eauto.
Qed.

(** The main thread leaves the lock alone, creates threads only at their
    first line, and only ever appends to the queue. *)
Lemma main_step_frame l s s' :
  main_step initial_elo c l s = Some s' ->
  queue_lock s' = queue_lock s /\
  (live_threads s' = live_threads s \/
   live_threads s' = live_threads s ++ [AtQuitTest]) /\
  (player_queue s' = player_queue s \/
   exists player, player_queue s' = player_queue s ++ [player]).
Proof.
  intros H. main_cases H; simpl; eauto 6.
Qed.

(** A thread's step changes that thread's entry and no other, and leaves
    the main thread and the quit flag alone. *)
Lemma thread_step_frame i o s s' :
  thread_step i o s = Some s' ->
  exists w w',
    nth_error (live_threads s) i = Some w /\
    live_threads s' = update i w' (live_threads s) /\
    driver s' = driver s /\ quit_event s' = quit_event s.
Proof.
  unfold thread_step. intros H.
  destruct (nth_error (live_threads s) i) as [w|] eqn:Ew; [|discriminate].
  exists w.
  invert_step H; simpl; eauto.
Qed.

Lemma run_reachable ls : forall s s',
  reachable initial_elo c s -> run initial_elo c ls s = Some s' ->
  reachable initial_elo c s'.
Proof.
  induction ls as [|l ls IH]; simpl; intros s s' Hs H.
  - inversion H; subst; auto.
  - destruct (step initial_elo c l s) as [s1|] eqn:E; [|discriminate].
    eapply IH; [|exact H]. econstructor; eauto.
Qed.

(** A schedule in two parts. *)
Lemma run_app ls1 : forall ls2 s s',
  run initial_elo c (ls1 ++ ls2) s = Some s' <->
  exists s1, run initial_elo c ls1 s = Some s1 /\ run initial_elo c ls2 s1 = Some s'.
Proof.
  induction ls1 as [|l ls1 IH]; intros ls2 s s'; cbn [app run].
  - split; [eauto|]. intros (s1 & E & H). inversion E; subst. exact H.
  - destruct (step initial_elo c l s) as [s0|]; [apply IH|].
    split; [discriminate|]. intros (s1 & E & _). discriminate.
Qed.

End StepFacts.

(** ** The lock: one thread at a time between the size test and the second get *)

Lemma holders_app ws w :
  holders (ws ++ [w]) = holders ws + (if in_critical_section w then 1 else 0).
Proof.
  unfold holders. rewrite filter_app, length_app. simpl.
  destruct (in_critical_section w); reflexivity.
Qed.

Lemma holders_update i w w' ws :
  nth_error ws i = Some w ->
  holders (update i w' ws) + (if in_critical_section w then 1 else 0) =
  holders ws + (if in_critical_section w' then 1 else 0).
Proof.
  unfold holders. revert i.
  induction ws as [|x ws IH]; intros [|i] H; simpl in *; try discriminate.
  - inversion H; subst.
    destruct (in_critical_section w), (in_critical_section w'); simpl; lia.
  - specialize (IH i H). destruct (in_critical_section x); simpl; lia.
Qed.

Lemma holders_positive i w ws :
  nth_error ws i = Some w -> in_critical_section w = true -> 1 <= holders ws.
Proof.
  unfold holders. revert i.
  induction ws as [|x ws IH]; intros [|i] H Hw; simpl in *; try discriminate.
  - inversion H; subst. rewrite Hw. simpl. lia.
  - specialize (IH i H Hw). destruct (in_critical_section x); simpl; lia.
Qed.

(** With one thread inside the locked section, every other is outside. *)
Lemma holders_unique i j w w' ws :
  holders ws <= 1 ->
  nth_error ws i = Some w -> in_critical_section w = true ->
  nth_error ws j = Some w' -> in_critical_section w' = true ->
  j = i.
Proof.
  unfold holders. revert i j.
  induction ws as [|x ws IH]; intros [|i] [|j] Hh Hi Hw Hj Hw'; simpl in *;
    try discriminate; auto.
  - inversion Hi; subst. rewrite Hw in Hh. simpl in Hh.
    pose proof (holders_positive _ _ _ Hj Hw'). unfold holders in *. lia.
  - inversion Hj; subst. rewrite Hw' in Hh. simpl in Hh.
    pose proof (holders_positive _ _ _ Hi Hw). unfold holders in *. lia.
  - f_equal. apply IH; auto.
    destruct (in_critical_section x); simpl in Hh; lia.
Qed.

Lemma queue_suffices_outside n w :
  in_critical_section w = false -> queue_suffices n w.
Proof. destruct w; simpl; try discriminate; auto. Qed.

Lemma queue_suffices_mono n m w :
  n <= m -> queue_suffices n w -> queue_suffices m w.
Proof. destruct w; simpl; lia. Qed.

(** When the thread inside the locked section moves, the others are outside
    it, whatever the queue holds afterwards. *)
Lemma Forall_suffices_update n m i w w' ws :
  holders ws <= 1 ->
  nth_error ws i = Some w -> in_critical_section w = true ->
  queue_suffices m w' ->
  Forall (queue_suffices n) ws ->
  Forall (queue_suffices m) (update i w' ws).
Proof.
  intros Hh Hi Hw Hw' _. apply Forall_nth_error. intros j x Hj.
  apply nth_error_update_inv in Hj. destruct Hj as [[-> ->]|[Hne Hj]]; auto.
  apply queue_suffices_outside.
  destruct (in_critical_section x) eqn:Ex; auto.
  exfalso. apply Hne. eapply holders_unique; eauto.
Qed.

Section LockFacts.
Variable initial_elo : Z.
Variable c : config.

Lemma lock_invariant_step l s s' :
  lock_invariant s -> step initial_elo c l s = Some s' -> lock_invariant s'.
Proof.
  unfold lock_invariant. intros [Hh Hq] H.
  destruct (step_cases _ _ _ _ _ H) as [Hm|(i & o & Ht & _)]; clear H.
  - apply main_step_frame in Hm.
    destruct Hm as [-> [Ht Hqueue]].
    assert (Hlen : length (player_queue s) <= length (player_queue s')).
    { destruct Hqueue as [->|[p ->]]; [|rewrite length_app]; simpl; lia. }
    destruct Ht as [->| ->].
    + split; auto. eapply Forall_impl; [|exact Hq].
      intros w. apply queue_suffices_mono, Hlen.
    + rewrite holders_app. simpl. split; [lia|].
      apply Forall_app. split; [|repeat constructor].
      eapply Forall_impl; [|exact Hq].
      intros w. apply queue_suffices_mono, Hlen.
  - rename Ht into H. unfold thread_step in H.
    destruct (nth_error (live_threads s) i) as [w|] eqn:Ew; [|discriminate];
    pose proof (holders_update i w) as Hu;
    pose proof (holders_positive i w _ Ew) as Hp;
    pose proof (Forall_suffices_update (length (player_queue s))) as Hf;
    assert (Hw : queue_suffices (length (player_queue s)) w)
      by (rewrite Forall_nth_error in Hq; eauto);
    invert_step H; simpl in *;
    match goal with
    | |- holders (update _ ?w' _) = _ /\ _ =>
        specialize (Hu w' _ Ew); simpl in Hu
    end;
    rewrite ?Nat.add_0_r in Hu;
    try (split; [lia | apply Forall_update; simpl; auto]; fail).
    all: try (destruct (queue_lock s) eqn:El; [|specialize (Hp eq_refl); lia];
              split; [lia | eapply Hf; eauto; simpl; try lia]).
    all: match goal with
         | Hb : (_ <? 2) = false |- _ => apply Nat.ltb_ge in Hb; exact Hb
         end.
Qed.

Lemma reachable_lock_invariant s :
  reachable initial_elo c s -> lock_invariant s.
Proof.
  induction 1 as [|s l s' _ IH H].
  - split; simpl; auto.
  - eapply lock_invariant_step; eauto.
Qed.




End LockFacts.

(** ** Shutdown: the quit flag and the joins *)

Lemma firstn_succ_nth_error {A : Type} (l : list A) n x :
  nth_error l n = Some x -> firstn (S n) l = firstn n l ++ [x].
Proof.
  revert n; induction l as [|y l IH]; intros [|n] H; simpl in *; try discriminate.
  - inversion H; subst. reflexivity.
  - f_equal. apply IH. exact H.
Qed.

Lemma Forall_firstn_lt {A : Type} (P : A -> Prop) (l : list A) n i x :
  Forall P (firstn n l) -> nth_error l i = Some x -> i < n -> P x.
Proof.
  intros H Hi Hlt. rewrite Forall_nth_error in H. apply (H i).
  rewrite nth_error_firstn. destruct (Nat.ltb_spec i n); [exact Hi | lia].
Qed.

Section ShutdownFacts.
Variable initial_elo : Z.
Variable c : config.

(** A thread that has ended takes no step. *)
Lemma thread_step_alive i o s s' w :
  thread_step i o s = Some s' ->
  nth_error (live_threads s) i = Some w ->
  terminated w = false.
Proof.
  unfold thread_step. intros H Ew. rewrite Ew in H.
  destruct w; simpl; auto; destruct o; discriminate.
Qed.

(** A thread reaches its [return] only from the test of [quit_event], and
    only when the flag is set. *)
Lemma thread_step_quit i o s s' w :
  thread_step i o s = Some s' ->
  nth_error (live_threads s) i = Some w ->
  nth_error (live_threads s') i = Some Quit ->
  w = AtQuitTest /\ quit_event s = true /\ o = None.
Proof.
  unfold thread_step. intros H Ew. rewrite Ew in H.
  invert_step H; simpl; rewrite (nth_error_update_eq _ _ _ _ Ew);
    intros Hq; inversion Hq; auto.
Qed.



Lemma shutdown_invariant_step l s s' :
  shutdown_invariant s -> step initial_elo c l s = Some s' -> shutdown_invariant s'.
Proof.
  unfold shutdown_invariant. intros (Hquit & Hjoin & Hobs) H.
  destruct (step_cases _ _ _ _ _ H) as [Hm|(i & o & Ht & _)]; clear H.
  - main_cases Hm; try rewrite E; cbn [past_finally joined] in *;
      repeat split; auto.
    + apply Forall_app; split; auto. repeat constructor. discriminate.
    + eapply Forall_impl; [|exact Hobs]. auto.
    + match goal with
      | Hn : nth_error _ _ = Some _ |- _ =>
          rewrite (firstn_succ_nth_error _ _ _ Hn)
      end.
      apply Forall_app; split; auto.
    + match goal with
      | Hn : nth_error _ _ = None |- _ => apply nth_error_None in Hn
      end.
      rewrite firstn_all2 in Hjoin by lia. exact Hjoin.
  - rename Ht into H.
    destruct (thread_step_frame _ _ _ _ H) as (w & w' & Ew & Et & Ed & Eq);
    pose proof (thread_step_alive _ _ _ _ _ H Ew) as Halive;
    rewrite Et, Ed, Eq; repeat split; auto.
    + destruct (driver s) eqn:Edrv; simpl in *; auto.
      * rewrite firstn_update_ge; auto.
        destruct (Nat.le_gt_cases n i) as [Hle|Hgt]; auto.
        pose proof (Forall_firstn_lt _ _ _ _ _ Hjoin Ew Hgt). congruence.
      * rewrite Forall_nth_error in Hjoin. specialize (Hjoin _ _ Ew). congruence.
    + apply Forall_nth_error. intros j x Hj.
      rewrite <- Et in Hj.
      destruct (Nat.eq_dec j i) as [->|Hne].
      * intros ->. eapply thread_step_quit; eauto.
      * rewrite Et, nth_error_update_neq in Hj by auto.
        rewrite Forall_nth_error in Hobs. eauto.
Qed.

Lemma reachable_shutdown_invariant s :
  reachable initial_elo c s -> shutdown_invariant s.
Proof.
  induction 1 as [|s l s' _ IH H].
  - repeat split; simpl; auto.
  - eapply shutdown_invariant_step; eauto.
Qed.




End ShutdownFacts.

(** ** The wait for the queue to drain *)

Section DrainFacts.
Variable initial_elo : Z.
Variable c : config.

(** A thread's step leaves the queue as it is or takes its first player. *)
Lemma thread_step_queue i o s s' :
  thread_step i o s = Some s' ->
  player_queue s' = player_queue s \/
  exists player, player_queue s = player :: player_queue s'.
Proof.
  unfold thread_step. intros H.
  invert_step H; state_simpl; eauto.
Qed.

Lemma drain_invariant_step l s s' :
  drain_invariant s -> step initial_elo c l s = Some s' -> drain_invariant s'.
Proof.
  unfold drain_invariant. intros Hd H.
  destruct (step_cases _ _ _ _ _ H) as [Hm|(i & o & Ht & _)]; clear H.
  - main_cases Hm;
      try rewrite E in *; try rewrite length_app in *; simpl in *;
      try lia;
      match goal with
      | Hq : (1 <? _) = false |- _ => apply Nat.ltb_ge in Hq; lia
      end.
  - destruct (thread_step_frame _ _ _ _ Ht) as (w & w' & _ & _ & Ed & _);
    rewrite Ed;
    destruct (thread_step_queue _ _ _ _ Ht) as [Eq|[p Eq]]; rewrite Eq in *;
    simpl in *; destruct (driver s); lia.
Qed.

Lemma reachable_drain_invariant s :
  reachable initial_elo c s -> drain_invariant s.
Proof.
  induction 1 as [|s l s' _ IH H].
  - simpl. unfold drain_invariant. simpl. lia.
  - eapply drain_invariant_step; eauto.
Qed.

(** C3, amended.  AWAIT_DRAIN (lines 58-59) is a poll of the queue's size:
    the main thread stays at the loop while two or more players are queued
    and goes on to the next sub-generation as soon as fewer than two are,
    whatever the threads are doing.  So in every state [train] can reach,
    while the players of a sub-generation are being enqueued the queue
    holds at most one player more than those enqueued so far in this
    sub-generation, and at most one player outside that loop; whether the
    matches of the players taken earlier have been played is not
    awaited. *)
Theorem drain_polls_queue_size :
  forall s, reachable initial_elo c s ->
    (forall players generation sub_generation,
       driver s = Draining players generation sub_generation ->
       step initial_elo c Main s =
       Some (if 1 <? length (player_queue s) then s
             else set_driver (SubGenerationHead players generation (S sub_generation)) s)) /\
    match driver s with
    | Enqueueing players _ _ rest =>
        length (player_queue s) + length rest <= length players + 1
    | Draining players _ _ =>
        length (player_queue s) <= length players + 1
    | _ => length (player_queue s) <= 1
    end.
Proof.
  intros s Hs. split.
  - intros players generation sub_generation Ed.
    cbn [step]. unfold main_step. rewrite Ed.
    destruct (1 <? length (player_queue s)); reflexivity.
  - exact (reachable_drain_invariant s Hs).
Qed.

End DrainFacts.

(** ** What [train] raises *)

Section RaiseFacts.
Variable initial_elo : Z.
Variable c : config.

Lemma raise_invariant_step l s s' :
  raise_invariant c s -> step initial_elo c l s = Some s' -> raise_invariant c s'.
Proof.
  unfold raise_invariant. intros Hr H.
  destruct (step_cases _ _ _ _ _ H) as [Hm|(i & o & Ht & _)]; clear H.
  - main_cases Hm;
      try rewrite E in *; auto;
      match goal with
      | Hp : negb (_ =? _)%Z = _ |- _ =>
          rewrite ?negb_true_iff, ?negb_false_iff in Hp;
          first [apply Z.eqb_eq in Hp | apply Z.eqb_neq in Hp]; auto
      end.
  - destruct (thread_step_frame _ _ _ _ Ht) as (w & w' & Ew & _ & Ed & _);
    rewrite Ed; destruct (driver s); auto;
    [ subst s | destruct Hr as (_ & _ & ->) ]; destruct i; discriminate.
Qed.

Lemma reachable_raise_invariant s :
  reachable initial_elo c s -> raise_invariant c s.
Proof.
  induction 1 as [|s l s' _ IH H].
  - reflexivity.
  - eapply raise_invariant_step; eauto.
Qed.

(** C7.  With an odd [population_size] the first step of [train] raises
    [OddPopulationError] to the caller, and the only states ever reached
    are the one [train] was called in and that one after the raise: no
    thread, no player, nothing in the queue, the flag and the lock
    untouched.  With an even [population_size] no state is reached in
    which [train] has raised. *)
Theorem odd_population_fails_first :
  (Z.odd (population_size c) = true ->
     step initial_elo c Main initial
     = Some (set_driver (Failed OddPopulationError) initial) /\
     forall s, reachable initial_elo c s ->
       (s = initial \/ s = set_driver (Failed OddPopulationError) initial) /\
       live_threads s = [] /\ heap s = [] /\ player_queue s = [] /\
       quit_event s = false /\ queue_lock s = false) /\
  (Z.even (population_size c) = true ->
     forall s e, reachable initial_elo c s -> driver s <> Failed e).
Proof.
  pose proof (Zmod_odd (population_size c)) as Hmod.
  split.
  - intros Hodd. rewrite Hodd in Hmod. split.
    + cbn [step]. unfold main_step. cbn [driver initial].
      rewrite Hmod. reflexivity.
    + intros s Hs. apply reachable_raise_invariant in Hs.
      unfold raise_invariant in Hs.
      assert (Hcases : s = initial \/ s = set_driver (Failed OddPopulationError) initial).
      { destruct (driver s); auto; try lia. right. apply Hs. }
      split; [exact Hcases|].
      destruct Hcases as [->| ->]; repeat split.
  - intros Heven s e Hs Ed.
    rewrite <- Z.negb_even, Heven in Hmod. simpl in Hmod.
    apply reachable_raise_invariant in Hs.
    unfold raise_invariant in Hs. rewrite Ed in Hs.
    destruct Hs as (_ & Hne & _). contradiction.
Qed.

(** C8, amended.  A failing match is not passed on to the caller of
    [train].  In every state [train] can reach: a match that raises ends
    the thread that played it and changes nothing else, so that the main
    thread goes on as before; [train] has raised to its caller only with
    [OddPopulationError], for an odd [population_size], with no thread
    started; the join of a thread ended by an exception returns like that
    of a thread that returned; and after the last join [train] returns
    [players] whatever exception is pending in its [try] block. *)
Theorem match_failure_stays_in_thread :
  forall s, reachable initial_elo c s ->
    (forall i player_one player_two,
       nth_error (live_threads s) i = Some (AtPlay player_one player_two) ->
       step initial_elo c (ThreadMatch i Erred) s
       = Some (set_threads (update i (Crashed MatchError) (live_threads s)) s)) /\
    (forall e, driver s = Failed e ->
       e = OddPopulationError /\ Z.odd (population_size c) = true /\
       live_threads s = []) /\
    (forall players pending n e, driver s = Joining players pending n ->
       nth_error (live_threads s) n = Some (Crashed e) ->
       step initial_elo c Main s = Some (set_driver (Joining players pending (S n)) s)) /\
    (forall players pending n, driver s = Joining players pending n ->
       nth_error (live_threads s) n = None ->
       step initial_elo c Main s = Some (set_driver (Returned players) s)).
Proof.
  intros s Hs. split; [|split; [|split]].
  - intros i player_one player_two Ew.
    cbn [step]. unfold thread_step. rewrite Ew. reflexivity.
  - intros e Ed. apply reachable_raise_invariant in Hs.
    unfold raise_invariant in Hs. rewrite Ed in Hs.
    destruct Hs as (He & Hne & ->). repeat split; auto.
    pose proof (Zmod_odd (population_size c)) as Hmod.
    destruct (Z.odd (population_size c)); auto; contradiction.
  - intros players pending n e Ed Ew.
    cbn [step]. unfold main_step. rewrite Ed, Ew. reflexivity.
  - intros players pending n Ed Ew.
    cbn [step]. unfold main_step. rewrite Ed, Ew. reflexivity.
Qed.

End RaiseFacts.

(** ** The population keeps its size *)

Section SizeFacts.
Variable initial_elo : Z.
Variable c : config.

Lemma size_invariant_step l s s' :
  size_invariant c s -> step initial_elo c l s = Some s' -> size_invariant c s'.
Proof.
  unfold size_invariant. intros (Hp & Hr & Hsel) H.
  destruct (step_cases _ _ _ _ _ H) as [Hm|(i & o & Ht & _)]; clear H.
  - main_cases Hm;
      try rewrite E in *; cbn [population_of to_enqueue length] in *;
      (split; [intros ps Hps; inversion Hps; subst; clear Hps | split; try lia]);
      try (apply Hp; reflexivity); try discriminate; try exact I;
      repeat match goal with
        | Hb : (_ <? _)%Z = true |- _ => apply Z.ltb_lt in Hb
        | Hb : (_ <? _)%Z = false |- _ => apply Z.ltb_ge in Hb
        end;
      try rewrite length_app; cbn [length]; try lia.
    + match goal with
      | Hn : new_players _ _ _ = _ |- _ => apply new_players_length in Hn; tauto
      end.
    + match goal with
      | Hi : is_permutation _ _ = true |- _ =>
          apply is_permutation_sound in Hi; apply Permutation_length in Hi;
          unfold ref in *; rewrite Hi
      end.
      apply Hp. reflexivity.
    + match goal with
      | Hi : is_permutation _ _ = true |- _ =>
          apply is_permutation_sound in Hi; apply Permutation_length in Hi;
          unfold ref in *; rewrite Hi
      end.
      rewrite (Hp _ eq_refl). lia.
    + rewrite sort_reverse_length. apply Hp. reflexivity.
    + match goal with
      | Hi : is_permutation _ _ = true |- _ =>
          apply is_permutation_sound in Hi; apply Permutation_length in Hi;
          unfold ref in *; rewrite Hi
      end.
      apply Hp. reflexivity.
    + pose proof (slice_to_length_le z players). lia.
  - destruct (thread_step_frame _ _ _ _ Ht) as (w & w' & _ & _ & Ed & _).
    rewrite Ed. auto.
Qed.

Lemma reachable_size_invariant s :
  reachable initial_elo c s -> size_invariant c s.
Proof.
  induction 1 as [|s l s' _ IH H].
  - split; [|split]; simpl; [discriminate | lia | exact I].
  - eapply size_invariant_step; eauto.
Qed.

Lemma reachable_population_size s players :
  reachable initial_elo c s ->
  population_of (driver s) = Some players ->
  length players = Z.to_nat (population_size c).
Proof.
  intros Hs Hp.
  destruct (reachable_size_invariant s Hs) as [H _]. auto.
Qed.

(** X1.  While the generations run, [players] has [population_size]
    entries (none when [population_size] is negative): when the threads are
    started, at the head of every generation and sub-generation, through the
    shuffle, the enqueueing and the wait, and when the selection starts.  So
    every shuffle keeps the size and every refill that ends normally
    restores it. *)
Theorem population_keeps_its_size :
  forall s players,
    reachable initial_elo c s ->
    population_of (driver s) = Some players ->
    length players = Z.to_nat (population_size c).
Proof.
  intros s players Hs Hp.
  destruct (reachable_size_invariant s Hs) as [H _]. auto.
Qed.

End SizeFacts.

(** ** The population holds each player once *)

Section ValidFacts.
Variable initial_elo : Z.
Variable c : config.

(** A thread creates no player and removes none. *)
Lemma thread_step_heap_length i o s s' :
  thread_step i o s = Some s' -> length (heap s') = length (heap s).
Proof.
  unfold thread_step. intros H.
  invert_step H; state_simpl; rewrite ?set_elo_length; auto.
Qed.

(** No step removes a player object. *)
Lemma heap_never_shrinks l s s' :
  step initial_elo c l s = Some s' -> length (heap s) <= length (heap s').
Proof.
  intros H.
  destruct (step_cases _ _ _ _ _ H) as [Hm|(i & o & Ht & _)]; clear H.
  - main_cases Hm; auto;
      rewrite ?mutate_length, ?length_app; cbn [length]; try lia.
    match goal with
    | Hn : new_players _ _ _ = _ |- _ => apply new_players_length in Hn; lia
    end.
  - rewrite (thread_step_heap_length _ _ _ _ Ht). auto.
Qed.

Lemma valid_invariant_step l s s' :
  valid_invariant s -> step initial_elo c l s = Some s' -> valid_invariant s'.
Proof.
  unfold valid_invariant. intros Hv H.
  destruct (step_cases _ _ _ _ _ H) as [Hm|(i & o & Ht & _)]; clear H.
  - main_cases Hm;
      try rewrite E in *; cbn [population_of selection_of] in *;
      intros ps [Hps|Hps]; inversion Hps; subst; clear Hps;
      try (apply Hv; auto; fail).
    + match goal with
      | Hn : new_players _ _ _ = _ |- _ =>
          pose proof (new_players_length _ _ _ _ _ Hn) as [_ Hlen];
          apply new_players_fresh in Hn; subst
      end.
      split; [apply seq_NoDup|].
      apply Forall_forall. intros r Hr. apply in_seq in Hr. lia.
    + destruct (Hv players) as [Hnd Hlt]; auto.
      match goal with
      | Hi : is_permutation _ _ = true |- _ => apply is_permutation_sound in Hi
      end.
      split.
      * eapply Permutation_NoDup; [apply Permutation_sym; eassumption | exact Hnd].
      * eapply Permutation_Forall; [apply Permutation_sym; eassumption | exact Hlt].
    + destruct (Hv players) as [Hnd Hlt]; auto.
      pose proof (sort_reverse_perm (elo_of (heap s)) players) as Hperm.
      split.
      * eapply Permutation_NoDup; [apply Permutation_sym; exact Hperm | exact Hnd].
      * eapply Permutation_Forall; [apply Permutation_sym; exact Hperm | exact Hlt].
    + destruct (Hv players) as [Hnd Hlt]; auto.
      match goal with
      | Hi : is_permutation _ _ = true |- _ => apply is_permutation_sound in Hi
      end.
      split.
      * eapply Permutation_NoDup; [apply Permutation_sym; eassumption | exact Hnd].
      * eapply Permutation_Forall; [apply Permutation_sym; eassumption | exact Hlt].
    + destruct (Hv players) as [Hnd Hlt]; auto.
      split; [apply slice_to_NoDup, Hnd|].
      apply Forall_forall. intros r Hr. apply slice_to_incl in Hr.
      rewrite Forall_forall in Hlt. auto.
    + destruct (Hv players) as [Hnd Hlt]; auto.
      rewrite mutate_length, length_app. cbn [length].
      split.
      * apply (NoDup_app_seq players (length (heap s)) 1); auto.
      * apply Forall_app. split.
        -- eapply Forall_impl; [|exact Hlt]. simpl. intros; lia.
        -- repeat constructor. lia.
    + destruct (Hv players) as [Hnd Hlt]; auto.
      rewrite length_app. cbn [length].
      split.
      * apply (NoDup_app_seq players (length (heap s)) 1); auto.
      * apply Forall_app. split.
        -- eapply Forall_impl; [|exact Hlt]. simpl. intros; lia.
        -- repeat constructor. lia.
  - destruct (thread_step_frame _ _ _ _ Ht) as (w & w' & _ & _ & Ed & _).
    rewrite Ed, (thread_step_heap_length _ _ _ _ Ht). exact Hv.
Qed.

Lemma reachable_valid_invariant s :
  reachable initial_elo c s -> valid_invariant s.
Proof.
  induction 1 as [|s l s' _ IH H].
  - intros players [Hp|Hp]; discriminate.
  - eapply valid_invariant_step; eauto.
Qed.

End ValidFacts.

(** ** Where the refill stands *)

Section RefillFacts.
Variable initial_elo : Z.
Variable c : config.

Lemma refill_invariant_step l s s' :
  size_invariant c s ->
  refill_invariant c s -> step initial_elo c l s = Some s' -> refill_invariant c s'.
Proof.
  unfold refill_invariant. intros (_ & _ & Hsize) Hr H.
  destruct (step_cases _ _ _ _ _ H) as [Hm|(i & o & Ht & _)]; clear H.
  - main_cases Hm; try rewrite E in *; auto.
    + split; [reflexivity|].
      exists z, players, []. rewrite app_nil_r. auto.
    + destruct Hr as (Hi & k & ranked & added & Hlen & Hk & -> & Hnone).
      split; [exact Hi|].
      exists k, ranked, (added ++ [length (heap s)]).
      rewrite <- app_assoc. repeat split; auto.
      intros Hnil. specialize (Hnone Hnil). subst added. rewrite Hnil in *.
      match goal with
      | Hc : choice _ _ = Some _ |- _ =>
          cbn [app] in Hc; rewrite choice_empty in Hc; discriminate
      end.
    + destruct Hr as (-> & _). discriminate.
  - destruct (thread_step_frame _ _ _ _ Ht) as (w & w' & _ & _ & Ed & _).
    rewrite Ed. exact Hr.
Qed.

Lemma reachable_refill_invariant s :
  reachable initial_elo c s -> refill_invariant c s.
Proof.
  induction 1 as [|s l s' Hs IH H].
  - exact I.
  - eapply refill_invariant_step; eauto.
    apply reachable_size_invariant with (initial_elo := initial_elo). exact Hs.
Qed.

(** With a positive bound of the slice the refill always has a player to
    choose from. *)
Lemma refill_has_survivor k s players generation i :
  (0 < population_size c)%Z ->
  cut_bound (Z.to_nat (population_size c)) (fraction_kept c) = inl k ->
  (1 <= k)%Z ->
  refill_invariant c s -> driver s = Refilling players generation i ->
  players <> [].
Proof.
  unfold refill_invariant. intros HP Hk Hk1 Hr Ed. rewrite Ed in Hr.
  destruct Hr as (_ & k' & ranked & added & Hlen & Hk' & -> & _).
  rewrite Hlen, Hk in Hk'. inversion Hk'; subst k'.
  assert (Hne : slice_to k ranked <> []).
  { apply slice_to_nonempty; auto. intros ->. simpl in Hlen. lia. }
  destruct (slice_to k ranked); simpl; congruence.
Qed.

(** With the bound 0 the refill has nobody, and gets nobody. *)
Lemma refill_has_nobody s players generation i :
  cut_bound (Z.to_nat (population_size c)) (fraction_kept c) = inl 0%Z ->
  refill_invariant c s -> driver s = Refilling players generation i ->
  players = [].
Proof.
  unfold refill_invariant. intros Hk Hr Ed. rewrite Ed in Hr.
  destruct Hr as (_ & k' & ranked & added & Hlen & Hk' & -> & Hnone).
  rewrite Hlen, Hk in Hk'. inversion Hk'; subst k'.
  rewrite slice_to_zero in *. rewrite Hnone; reflexivity.
Qed.

End RefillFacts.

(** ** The selection, function and steps *)

Section EvolveFacts.
Variable initial_elo : Z.
Variable rate : Q.

(** With a survivor the refill ends normally; without, at its first
    [choice]. *)
Lemma evolve_cases (population_size : Z) (fraction_kept : float) rnd h players k :
  (0 < population_size)%Z ->
  length players = Z.to_nat population_size ->
  cut_bound (length players) fraction_kept = inl k ->
  let survivors := slice_to k (sort_reverse (elo_of h) players) in
  select (elo_of h) fraction_kept players = (Normal, survivors) /\
  ((1 <= k)%Z ->
     survivors <> [] /\
     exists h' added,
       evolve initial_elo rate population_size fraction_kept rnd h players
       = (Normal, h', survivors ++ added) /\
       length (survivors ++ added) = Z.to_nat population_size) /\
  (k = 0%Z ->
     survivors = [] /\
     evolve initial_elo rate population_size fraction_kept rnd h players
     = (Raises IndexError, h, [])).
Proof.
  intros HP Hlen Hk survivors.
  assert (Hsel : select (elo_of h) fraction_kept players = (Normal, survivors)).
  { rewrite select_cut, Hk. reflexivity. }
  split; [exact Hsel|]. split; intros Hk1.
  - assert (Hne : survivors <> []).
    { apply slice_to_nonempty; auto. intros E.
      apply (f_equal (@length ref)) in E. rewrite sort_reverse_length in E.
      simpl in E. lia. }
    split; [exact Hne|].
    unfold evolve. rewrite Hsel.
    destruct (reproduce_nonempty initial_elo rate
                (Z.to_nat (population_size - Z.of_nat (length survivors)))
                rnd h survivors Hne) as [h' [added [E Ha]]].
    exists h', added. split; [exact E|].
    pose proof (slice_to_length_le k (sort_reverse (elo_of h) players)) as Hle.
    rewrite sort_reverse_length in Hle. fold survivors in Hle.
    rewrite length_app, Ha. lia.
  - assert (Hnil : survivors = []) by (unfold survivors; rewrite Hk1; reflexivity).
    split; [exact Hnil|].
    unfold evolve. rewrite Hsel, Hnil. simpl length.
    destruct (Z.to_nat (population_size - Z.of_nat 0)) as [|m] eqn:Em; [lia|].
    apply reproduce_empty.
Qed.

End EvolveFacts.

Section SelectionFacts.
Variable initial_elo : Z.
Variable c : config.

(** The loop of lines 104-111, turn by turn, does what [reproduce] says. *)
Lemma refill_runs_reproduce missing :
  forall rnd s players generation completed h' players',
    driver s = Refilling players generation 0 ->
    missing = Z.to_nat (population_size c - Z.of_nat (length players)) ->
    reproduce initial_elo (mutation_rate c) missing 0 rnd (heap s) players
    = (completed, h', players') ->
    exists ls,
      run initial_elo c ls s
      = Some (set_driver (after_block completed players' generation) (set_heap h' s)).
Proof.
  induction missing as [|m IH];
    intros rnd s players generation completed h' players' Ed Hm H.
  - cbn [reproduce] in H. inversion H; subst.
    exists [MainRefill 0]. cbn [run step]. unfold main_step. rewrite Ed.
    destruct (Z.ltb_spec (Z.of_nat (length players')) (population_size c)); [lia|].
    destruct s; reflexivity.
  - cbn [reproduce] in H. change (0 mod 2 =? 0) with true in H. cbv iota in H.
    destruct (choice (hd 0 rnd) players) as [parent|] eqn:Ec.
    + cbn [copy] in H.
      set (h2 := mutate (mutation_rate c) (length (heap s))
                   (heap s ++ [mkNNPlayer (elo_of (heap s) parent) (Some parent) []])) in *.
      set (s2 := set_driver (Refilling (players ++ [length (heap s)]) generation 0)
                   (set_heap h2 s)).
      destruct (IH (tl rnd) s2 (players ++ [length (heap s)]) generation
                  completed h' players') as [ls Hls]; auto.
      { rewrite length_app. cbn [length]. lia. }
      exists (MainRefill (hd 0 rnd) :: ls). cbn [run step].
      unfold main_step at 1. rewrite Ed.
      destruct (Z.ltb_spec (Z.of_nat (length players)) (population_size c)); [|lia].
      change (0 mod 2 =? 0) with true. cbv iota. rewrite Ec. cbn [copy].
      exact Hls.
    + inversion H; subst.
      exists [MainRefill (hd 0 rnd)]. cbn [run step].
      unfold main_step. rewrite Ed.
      destruct (Z.ltb_spec (Z.of_nat (length players')) (population_size c)); [|lia].
      change (0 mod 2 =? 0) with true. cbv iota. rewrite Ec.
      destruct s; reflexivity.
Qed.

(** Started in a quiescent state and not interrupted, the steps of the main
    thread through lines 101-111 do what [evolve] says. *)
Lemma selection_runs_evolve rnd s players generation completed h' players' :
  driver s = Selecting players generation ->
  quiescent s = true ->
  evolve initial_elo (mutation_rate c) (population_size c) (fraction_kept c)
    rnd (heap s) players = (completed, h', players') ->
  exists ls,
    run initial_elo c ls s
    = Some (set_driver (after_block completed players' generation) (set_heap h' s)).
Proof.
  intros Ed Hq H. unfold evolve in H. rewrite select_cut in H.
  set (ranked := sort_reverse (elo_of (heap s)) players) in *.
  assert (Hsort : step initial_elo c (MainSort []) s
                  = Some (set_driver (Cutting ranked generation) s)).
  { cbn [step]. unfold main_step. rewrite Ed, Hq. reflexivity. }
  assert (Hlen : length ranked = length players) by apply sort_reverse_length.
  destruct (cut_bound (length players) (fraction_kept c)) as [k|e] eqn:Ek.
  - set (s2 := set_driver (Refilling (slice_to k ranked) generation 0) s).
    destruct (refill_runs_reproduce _ rnd s2 _ generation _ _ _ eq_refl eq_refl H)
      as [ls Hls].
    exists (MainSort [] :: Main :: ls). cbn [run]. rewrite Hsort.
    cbn [step]. unfold main_step at 1. cbn [driver set_driver].
    rewrite Hlen, Ek. exact Hls.
  - inversion H; subst.
    exists [MainSort []; Main]. cbn [run]. rewrite Hsort.
    cbn [step]. unfold main_step. cbn [driver set_driver].
    rewrite Hlen, Ek. destruct s; reflexivity.
Qed.

(** C10, amended.  For a positive [population_size], with [k] the bound
    [int(population_size * fraction_kept)] of the slice, the product
    being the binary64 one.  Of the function of lines 101-111, on
    [population_size] players: the selection leaves the first [k] of the
    sorted list; when [k] is at least 1 that list is not empty and the
    refill ends normally with [population_size] players; when [k] is 0 it
    is empty and the refill stops at its first [choice] with [IndexError],
    [players] being empty.  Of [train], in every state it can reach with the
    main thread in the refilling loop: when [k] is at least 1 [players] is
    not empty, so that no turn of the loop ends with an exception; when [k]
    is 0 [players] is empty and the turn raises [IndexError]. *)
Theorem refill_needs_a_survivor :
  forall k,
    (0 < population_size c)%Z ->
    cut_bound (Z.to_nat (population_size c)) (fraction_kept c) = inl k ->
    (forall (rnd : list nat) (h : store) (players : list ref),
       length players = Z.to_nat (population_size c) ->
       let survivors := slice_to k (sort_reverse (elo_of h) players) in
       select (elo_of h) (fraction_kept c) players = (Normal, survivors) /\
       ((1 <= k)%Z ->
          survivors <> [] /\
          exists h' added,
            evolve initial_elo (mutation_rate c) (population_size c) (fraction_kept c)
              rnd h players = (Normal, h', survivors ++ added) /\
            length (survivors ++ added) = Z.to_nat (population_size c)) /\
       (k = 0%Z ->
          survivors = [] /\
          evolve initial_elo (mutation_rate c) (population_size c) (fraction_kept c)
            rnd h players = (Raises IndexError, h, []))) /\
    (forall s players generation i,
       reachable initial_elo c s -> driver s = Refilling players generation i ->
       ((1 <= k)%Z ->
          players <> [] /\
          forall r s' players' pending,
            step initial_elo c (MainRefill r) s = Some s' ->
            driver s' <> Finally players' pending) /\
       (k = 0%Z ->
          players = [] /\
          forall r,
            step initial_elo c (MainRefill r) s
            = Some (set_driver (Finally [] (Some IndexError)) s))).
Proof.
  intros k HP Hk. split.
  - intros rnd h players Hlen. apply evolve_cases; auto.
    rewrite Hlen. exact Hk.
  - intros s players generation i Hs Ed.
    pose proof (reachable_refill_invariant initial_elo c s Hs) as Hr.
    split; intros Hk1.
    + assert (Hne : players <> []) by (eapply refill_has_survivor; eauto).
      split; [exact Hne|].
      intros r s' players' pending H. cbn [step] in H.
      main_cases H; cbn [driver set_driver]; try discriminate.
      match goal with
      | Hc : choice _ _ = None |- _ =>
          inversion Ed; subst; apply choice_none in Hc; contradiction
      end.
    + subst k.
      assert (Hnil : players = []) by (eapply refill_has_nobody; eauto).
      split; [exact Hnil|]. subst players.
      intros r. cbn [step]. unfold main_step. rewrite Ed.
      unfold refill_invariant in Hr. rewrite Ed in Hr. destruct Hr as [-> _].
      cbn [length Z.of_nat].
      destruct (Z.ltb_spec 0 (population_size c)); [|lia].
      change (0 mod 2 =? 0) with true. cbv iota. rewrite choice_empty. reflexivity.
Qed.

(** C6, amended.  SELECT (lines 101-102), in every state [train] can
    reach.  At the sort the population holds [population_size] players, each
    once; the step through the sort leaves a rearrangement of it, nobody
    added, dropped or repeated, and when the state is quiescent that
    rearrangement is the stable sort by rating, highest first.  At the cut,
    with [k] the bound [int(P * fraction_kept)] of the slice, the product
    being the binary64 one: the step keeps the slice up to [k] of the sorted
    list and goes on to the refill; when [k] is not negative the players
    kept are the first [k], a prefix of the sorted list with the discarded
    tail behind it, without a repetition, exactly [k] of them when [k] is at
    most [P], and in any order the sorted list is descending for, they are
    descending too and each ranks at least as high as every player
    discarded.  When the bound raises, the step goes to the [finally] block
    with the sorted list. *)
Theorem select_keeps_top_fraction :
  forall s, reachable initial_elo c s ->
    (forall players generation, driver s = Selecting players generation ->
       NoDup players /\ length players = Z.to_nat (population_size c) /\
       (exists order s', step initial_elo c (MainSort order) s = Some s') /\
       forall l s', main_step initial_elo c l s = Some s' ->
         exists order ranked,
           l = MainSort order /\ s' = set_driver (Cutting ranked generation) s /\
           Permutation ranked players /\
           (quiescent s = true ->
              ranked = sort_reverse (elo_of (heap s)) players /\
              descending (elo_of (heap s)) ranked)) /\
    (forall ranked generation, driver s = Cutting ranked generation ->
       NoDup ranked /\ length ranked = Z.to_nat (population_size c) /\
       (forall l s', main_step initial_elo c l s = Some s' -> l = Main) /\
       match cut_bound (length ranked) (fraction_kept c) with
       | inl k =>
           step initial_elo c Main s
           = Some (set_driver (Refilling (slice_to k ranked) generation 0) s) /\
           ((0 <= k)%Z ->
              let kept := slice_to k ranked in
              let discarded := skipn (Z.to_nat k) ranked in
              kept = firstn (Z.to_nat k) ranked /\
              ranked = kept ++ discarded /\
              NoDup kept /\
              ((k <= population_size c)%Z -> Z.of_nat (length kept) = k) /\
              forall key : ref -> Z, descending key ranked ->
                descending key kept /\
                forall x y, In x kept -> In y discarded -> (key y <= key x)%Z)
       | inr e =>
           step initial_elo c Main s
           = Some (set_driver (Finally ranked (Some e)) s)
       end).
Proof.
  intros s Hs.
  pose proof (reachable_valid_invariant initial_elo c s Hs) as Hvalid.
  pose proof (reachable_size_invariant initial_elo c s Hs) as (Hpop & _ & Hsel).
  unfold valid_invariant in Hvalid.
  split.
  - intros players generation Ed. rewrite Ed in *. cbn [population_of selection_of] in *.
    destruct (Hvalid players) as [Hnd _]; auto.
    split; [exact Hnd|]. split; [apply Hpop; reflexivity|]. split.
    + exists players. cbn [step]. unfold main_step. rewrite Ed.
      rewrite is_permutation_refl. destruct (quiescent s); eauto.
    + intros l s' H. main_cases H; inversion Ed; subst.
      * exists order, (sort_reverse (elo_of (heap s)) players).
        repeat split; auto using sort_reverse_perm, sort_reverse_descending.
      * exists order, order. repeat split; try discriminate.
        apply is_permutation_sound. assumption.
  - intros ranked generation Ed. rewrite Ed in *. cbn [population_of selection_of] in *.
    destruct (Hvalid ranked) as [Hnd _]; auto.
    split; [exact Hnd|]. split; [exact Hsel|]. split.
    { intros l s' H. unfold main_step in H. rewrite Ed in H.
      destruct l; try discriminate. reflexivity. }
    destruct (cut_bound (length ranked) (fraction_kept c)) as [k|e] eqn:Ek.
    + split.
      { cbn [step]. unfold main_step. rewrite Ed, Ek. reflexivity. }
      intros Hk. cbv zeta.
      rewrite (slice_to_firstn k ranked Hk).
      split; [reflexivity|]. split; [|split; [|split]].
      * symmetry. apply firstn_skipn.
      * rewrite <- (slice_to_firstn k ranked Hk). apply slice_to_NoDup, Hnd.
      * intros Hle. rewrite length_firstn. lia.
      * intros key Hdesc. split.
        -- apply descending_firstn, Hdesc.
        -- intros x y Hx Hy. eapply descending_split; eauto.
    + cbn [step]. unfold main_step. rewrite Ed, Ek. reflexivity.
Qed.

End SelectionFacts.

(** ** What [train] returns *)

Lemma forallb_update {A : Type} (f : A -> bool) i x (l : list A) :
  forallb f l = true -> f x = true -> forallb f (update i x l) = true.
Proof.
  revert i. induction l as [|y l IH]; intros [|i] Hl Hx; simpl in *; auto;
    apply andb_true_iff in Hl; destruct Hl as [Hy Hl]; apply andb_true_iff; auto.
Qed.

Lemma forallb_nth_error {A : Type} (f : A -> bool) (l : list A) i x :
  forallb f l = true -> nth_error l i = Some x -> f x = true.
Proof.
  intros Hl Hi. rewrite forallb_forall in Hl. apply Hl. eapply nth_error_In; eauto.
Qed.

(** In a quiescent state the threads only go round their tests: the state
    stays quiescent and no player is written. *)
Lemma quiescent_thread_step i o s s' :
  quiescent s = true -> thread_step i o s = Some s' ->
  quiescent s' = true /\ heap s' = heap s.
Proof.
  unfold quiescent, thread_step. intros Hq H.
  apply andb_true_iff in Hq. destruct Hq as [Hall Hlen].
  destruct (nth_error (live_threads s) i) as [w|] eqn:Ew; [|discriminate].
  pose proof (forallb_nth_error _ _ _ _ Hall Ew) as Hw.
  apply Nat.ltb_lt in Hlen.
  invert_step H; state_simpl; try discriminate Hw;
    repeat match goal with
      | Hb : (_ <? _) = true |- _ => apply Nat.ltb_lt in Hb
      | Hb : (_ <? _) = false |- _ => apply Nat.ltb_ge in Hb
      end; try lia;
    (split; [|reflexivity]);
    apply andb_true_iff; (split; [apply forallb_update; auto | apply Nat.ltb_lt; lia]).
Qed.

(** A thread leaves the origin of every player as it is. *)
Lemma thread_step_provenance i o s s' r x :
  thread_step i o s = Some s' ->
  nth_error (heap s) r = Some x ->
  exists x', nth_error (heap s') r = Some x' /\
             copied_from x' = copied_from x /\ mutated x' = mutated x.
Proof.
  unfold thread_step. intros H Hr.
  invert_step H; state_simpl; eauto.
  destruct (set_elo_provenance player_one elo_one _ _ _ Hr) as (x1 & H1 & Hc1 & Hm1).
  destruct (set_elo_provenance player_two elo_two _ _ _ H1) as (x2 & H2 & Hc2 & Hm2).
  exists x2. split; [exact H2|]. split; congruence.
Qed.

Lemma mutated_copies_thread_step i o s s' rate players added :
  thread_step i o s = Some s' ->
  mutated_copies rate (heap s) players added ->
  mutated_copies rate (heap s') players added.
Proof.
  intros H Hm r Hr.
  destruct (Hm r Hr) as (parent & x & Hx & Hc & Hmu & Hin & Hlt).
  destruct (thread_step_provenance _ _ _ _ _ _ H Hx) as (x' & Hx' & Hc' & Hmu').
  exists parent, x'. repeat split; auto; congruence.
Qed.

Lemma last_sort_split (ls : list label) :
  no_sort ls = true \/
  exists ls1 order ls2, ls = ls1 ++ MainSort order :: ls2 /\ no_sort ls2 = true.
Proof.
  induction ls as [|l ls IH]; [left; reflexivity|].
  destruct IH as [Hno|(ls1 & order & ls2 & -> & Hno)].
  - destruct l; try (left; simpl; exact Hno).
    right. exists [], order, ls. auto.
  - right. exists (l :: ls1), order, ls2. auto.
Qed.

Section ResultFacts.
Variable initial_elo : Z.
Variable c : config.

Lemma selection_outcome_thread_step i o s s' first_new ranked result :
  thread_step i o s = Some s' ->
  selection_outcome c first_new ranked (heap s) result ->
  selection_outcome c first_new ranked (heap s') result.
Proof.
  intros H [(e & He & Hres & Hlen)|(k & j & Hk & Hres & Hlen & Hnone & Hm)].
  - left. exists e. rewrite (thread_step_heap_length _ _ _ _ H). auto.
  - right. exists k, j. rewrite (thread_step_heap_length _ _ _ _ H).
    repeat split; auto. eapply mutated_copies_thread_step; eauto.
Qed.

Lemma calm_since_thread_step i o s1 s s' :
  thread_step i o s = Some s' -> calm_since s1 s -> calm_since s1 s'.
Proof.
  unfold calm_since. intros H Hc Hq. destruct (Hc Hq) as [Hqs Helo].
  destruct (quiescent_thread_step _ _ _ _ Hqs H) as [Hqs' Hh].
  rewrite Hh. auto.
Qed.

(** The main thread, between a sort and the return, changes no rating of a
    player that existed at the sort, and neither the threads nor the queue. *)
Lemma calm_since_main s1 s s' :
  live_threads s' = live_threads s -> player_queue s' = player_queue s ->
  length (heap s1) <= length (heap s) ->
  (forall r, r < length (heap s) -> nth_error (heap s') r = nth_error (heap s) r) ->
  calm_since s1 s -> calm_since s1 s'.
Proof.
  unfold calm_since, quiescent. intros Ht Hq Hlen Hh Hc Hq1.
  destruct (Hc Hq1) as [Hqs Helo]. rewrite Ht, Hq. split; [exact Hqs|].
  intros r Hr. rewrite <- (Helo r Hr). unfold elo_of. rewrite Hh by lia. reflexivity.
Qed.

Lemma after_sort_step s1 players generation l s s' :
  valid_invariant s ->
  after_sort c s1 players generation s ->
  is_sort l = false ->
  step initial_elo c l s = Some s' ->
  after_sort c s1 players generation s'.
Proof.
  unfold after_sort. intros Hvalid Ha Hl H.
  destruct (step_cases _ _ _ _ _ H) as [Hm|(i & o & Ht & _)]; clear H.
  - main_cases Hm; try discriminate Hl;
      try rewrite E in *; try contradiction; try exact I.
    + (* line 99 raises *)
      destruct Ha as (Hc & _ & ranked & Hr & Ho).
      split; [exact Hc|]. exists ranked. split; [exact Hr|]. right. exact Ho.
    + (* the generations are over *)
      destruct Ha as (Hc & _ & ranked & Hr & Ho).
      split; [exact Hc|]. exists ranked. split; [exact Hr|]. right. exact Ho.
    + (* the cut *)
      destruct Ha as (Hc & Hg & Hr & Hlen).
      split; [exact Hc|]. split; [exact Hg|]. split; [reflexivity|].
      exists players0. split; [exact Hr|].
      exists z, 0. cbn [seq]. rewrite app_nil_r, Nat.add_0_r.
      repeat split; auto. intros r [].
    + (* the bound of the slice raises *)
      destruct Ha as (Hc & Hg & Hr & Hlen).
      split; [exact Hc|]. exists players0. split; [exact Hr|].
      left. exists e. auto.
    + (* a turn of the refill *)
      destruct Ha as (Hc & Hg & Hi & ranked & Hr & k & j & Hk & Hres & Hlen & Hnone & Hcopies).
      destruct (copy_mutate_store (mutation_rate c) r0 (heap s)) as (Hlen' & Hold & Hnew).
      destruct (Hvalid players0) as [_ Hlt]; [right; rewrite E; reflexivity|].
      assert (Hparent : In r0 players0) by (eapply choice_In; eauto).
      split.
      { apply (calm_since_main s1 s); [reflexivity | reflexivity | lia | exact Hold | exact Hc]. }
      split; [exact Hg|]. split; [exact Hi|].
      exists ranked. split; [exact Hr|].
      exists k, (S j).
      split; [exact Hk|]. split.
      { rewrite Hres, seq_snoc, app_assoc, <- Hlen. reflexivity. }
      split; [rewrite Hlen'; lia|]. split.
      { intros Hnil. specialize (Hnone Hnil). subst j.
        rewrite Hres, Hnil in Hparent. destruct Hparent. }
      intros r' Hr'. rewrite seq_snoc in Hr'. apply in_app_or in Hr'.
      destruct Hr' as [Hr'|[<-|[]]].
      * destruct (Hcopies r' Hr') as (parent & x & Hx & Hcf & Hmu & Hin & Hpr).
        exists parent, x. rewrite Hold by (apply nth_error_Some; congruence).
        repeat split; auto. apply in_or_app. auto.
      * rewrite <- Hlen.
        exists r0, (mkNNPlayer (elo_of (heap s) r0) (Some r0) [mutation_rate c]).
        repeat split; auto.
        -- apply in_or_app. auto.
        -- rewrite Forall_forall in Hlt. apply Hlt. exact Hparent.
    + (* [choice] raises *)
      destruct Ha as (Hc & _ & _ & ranked & Hr & Ho).
      split; [exact Hc|]. exists ranked. split; [exact Hr|]. right. exact Ho.
    + (* the branch of [NNPlayer()] *)
      destruct Ha as (_ & _ & -> & _). discriminate.
    + (* the loop ends *)
      destruct Ha as (Hc & Hg & _ & ranked & Hr & Ho).
      split; [exact Hc|]. split; [congruence|]. eauto.
    + (* line 113 *)
      destruct Ha as (Hc & Ho). split; [exact Hc | exact Ho].
    + (* a join *)
      destruct Ha as (Hc & Ho). split; [exact Hc | exact Ho].
    + (* the return *)
      destruct Ha as (Hc & Ho). split; [exact Hc | exact Ho].
  - destruct (thread_step_frame _ _ _ _ Ht) as (w & w' & _ & _ & Ed & _).
    rewrite Ed.
    pose proof (thread_step_heap_length _ _ _ _ Ht) as Hlen.
    destruct (driver s); auto.
    + destruct Ha as (Hc & Hg & ranked & Hr & k & j & Hk & Hres & Hl' & Hnone & Hcopies).
      split; [eapply calm_since_thread_step; eauto|]. split; [exact Hg|].
      exists ranked. split; [exact Hr|]. exists k, j. rewrite Hlen.
      repeat split; auto. eapply mutated_copies_thread_step; eauto.
    + destruct Ha as (Hc & Hg & Hr & Hl').
      split; [eapply calm_since_thread_step; eauto|]. repeat split; auto; try apply Hr.
      congruence.
    + destruct Ha as (Hc & Hg & Hi & ranked & Hr & k & j & Hk & Hres & Hl' & Hnone & Hcopies).
      split; [eapply calm_since_thread_step; eauto|]. split; [exact Hg|]. split; [exact Hi|].
      exists ranked. split; [exact Hr|]. exists k, j. rewrite Hlen.
      repeat split; auto. eapply mutated_copies_thread_step; eauto.
    + destruct Ha as (Hc & ranked & Hr & Ho).
      split; [eapply calm_since_thread_step; eauto|].
      exists ranked. split; [exact Hr|]. eapply selection_outcome_thread_step; eauto.
    + destruct Ha as (Hc & ranked & Hr & Ho).
      split; [eapply calm_since_thread_step; eauto|].
      exists ranked. split; [exact Hr|]. eapply selection_outcome_thread_step; eauto.
    + destruct Ha as (Hc & ranked & Hr & Ho).
      split; [eapply calm_since_thread_step; eauto|].
      exists ranked. split; [exact Hr|]. eapply selection_outcome_thread_step; eauto.
Qed.

Lemma after_sort_run s1 players generation ls :
  forall s s',
    reachable initial_elo c s ->
    after_sort c s1 players generation s ->
    no_sort ls = true ->
    run initial_elo c ls s = Some s' ->
    after_sort c s1 players generation s'.
Proof.
  induction ls as [|l ls IH]; intros s s' Hs Ha Hno H; cbn [run] in H.
  - inversion H; subst. exact Ha.
  - cbn [no_sort forallb] in Hno. apply andb_true_iff in Hno.
    destruct Hno as [Hl Hno]. apply negb_true_iff in Hl.
    destruct (step initial_elo c l s) as [s2|] eqn:E; [|discriminate].
    apply (IH s2 s'); auto.
    + econstructor; eauto.
    + eapply after_sort_step; eauto.
      apply reachable_valid_invariant with (initial_elo := initial_elo) (c := c).
      exact Hs.
Qed.

Lemma before_sort_step l s s' :
  before_sort c s -> is_sort l = false ->
  step initial_elo c l s = Some s' -> before_sort c s'.
Proof.
  unfold before_sort. intros Hb Hl H.
  destruct (step_cases _ _ _ _ _ H) as [Hm|(i & o & Ht & _)]; clear H.
  - main_cases Hm; try discriminate Hl;
      try rewrite E in *; try contradiction; try exact I; auto.
    + match goal with
      | Hn : new_players _ _ _ = _ |- _ => apply new_players_fresh in Hn
      end.
      rewrite Hb in *. assumption.
    + destruct Hb as [Hp _]. split; [exact Hp|]. right.
      destruct (Z.to_nat (population_size c)) eqn:En; [lia | discriminate].
    + destruct Hb as [Hp ->]. split; [exact Hp|]. left.
      match goal with
      | Hg : (0 <? _) = false |- _ => apply Nat.ltb_ge in Hg; lia
      end.
  - destruct (thread_step_frame _ _ _ _ Ht) as (w & w' & _ & _ & Ed & _).
    rewrite Ed.
    pose proof (thread_step_heap_length _ _ _ _ Ht) as Hlen.
    destruct (driver s); auto.
    rewrite Hb in Hlen. destruct (heap s'); [reflexivity | discriminate].
Qed.

Lemma before_sort_run ls :
  forall s s',
    before_sort c s -> no_sort ls = true ->
    run initial_elo c ls s = Some s' -> before_sort c s'.
Proof.
  induction ls as [|l ls IH]; intros s s' Hb Hno H; cbn [run] in H.
  - inversion H; subst. exact Hb.
  - cbn [no_sort forallb] in Hno. apply andb_true_iff in Hno.
    destruct Hno as [Hl Hno]. apply negb_true_iff in Hl.
    destruct (step initial_elo c l s) as [s2|] eqn:E; [|discriminate].
    apply (IH s2 s'); auto. eapply before_sort_step; eauto.
Qed.

(** The step through the sort. *)
Lemma sort_step order s s' :
  step initial_elo c (MainSort order) s = Some s' ->
  exists players generation ranked,
    driver s = Selecting players generation /\
    s' = set_driver (Cutting ranked generation) s /\
    ranked_from s players ranked.
Proof.
  cbn [step]. intros H. main_cases H.
  - exists players, generation, (sort_reverse (elo_of (heap s)) players).
    repeat split; auto. apply sort_reverse_perm.
  - exists players, generation, order. repeat split; auto.
    + apply is_permutation_sound. assumption.
    + congruence.
Qed.

(** C5, amended.  What [train] returns, for every schedule that ends with
    its return.  If the schedule never reaches the sort, there was no
    generation to run or nobody to train, and the list returned is the one
    line 88 built.  Otherwise take the last sort of the schedule, started in
    a state [s1] on the population [players], and let [ranked] be what it
    left: a rearrangement of [players], which is the stable descending sort
    by the ratings of [s1] when [s1] is quiescent, and is then still in
    descending order of rating when [train] returns.  The list returned is
    [ranked] itself when the bound of the slice raised; otherwise it is the
    slice of [ranked] followed by the players created since [s1], all of
    them and in the order of their creation, each of them in the final
    store a copy mutated once of a player that stands before it in the
    list; it is empty when the slice kept nobody.  Nothing sorts the list
    after the refill. *)
Theorem train_returns_last_refill :
  forall ls s result,
    run initial_elo c ls initial = Some s ->
    driver s = Returned result ->
    (no_sort ls = true /\
     result = seq 0 (Z.to_nat (population_size c)) /\
     (generations c = 0 \/ (population_size c <= 0)%Z)) \/
    (exists ls1 order ls2 s1 players generation ranked,
       ls = ls1 ++ MainSort order :: ls2 /\ no_sort ls2 = true /\
       run initial_elo c ls1 initial = Some s1 /\
       driver s1 = Selecting players generation /\
       ranked_from s1 players ranked /\
       (quiescent s1 = true -> descending (elo_of (heap s)) ranked) /\
       selection_outcome c (length (heap s1)) ranked (heap s) result).
Proof.
  intros ls s result Hrun Ed.
  destruct (last_sort_split ls) as [Hno|(ls1 & order & ls2 & -> & Hno)].
  - left. split; [exact Hno|].
    assert (Hb : before_sort c s).
    { apply (before_sort_run ls initial s); auto. reflexivity. }
    unfold before_sort in Hb. rewrite Ed in Hb. exact Hb.
  - right. apply run_app in Hrun. destruct Hrun as (s1 & Hrun1 & Hrun2).
    cbn [run] in Hrun2.
    destruct (step initial_elo c (MainSort order) s1) as [s2|] eqn:Hsort; [|discriminate].
    destruct (sort_step _ _ _ Hsort) as (players & generation & ranked & Ed1 & -> & Hr).
    assert (Hs1 : reachable initial_elo c s1).
    { eapply run_reachable; [constructor | exact Hrun1]. }
    assert (Ha : after_sort c s1 players generation s).
    { eapply after_sort_run; [| |exact Hno|exact Hrun2].
      - econstructor; eauto.
      - unfold after_sort. cbn [driver set_driver heap]. repeat split; auto; apply Hr. }
    unfold after_sort in Ha. rewrite Ed in Ha.
    destruct Ha as (Hc & ranked' & Hr' & Ho).
    exists ls1, order, ls2, s1, players, generation, ranked'.
    repeat split; auto; try apply Hr'.
    intros Hq. destruct (Hc Hq) as [_ Helo]. destruct Hr' as [_ Hsorted].
    rewrite (Hsorted Hq).
    apply (descending_ext (elo_of (heap s1))); [|apply sort_reverse_descending].
    intros r Hin. apply Helo.
    apply (Permutation_in _ (sort_reverse_perm _ _)) in Hin.
    destruct (reachable_valid_invariant initial_elo c s1 Hs1 players) as [_ Hlt].
    { left. rewrite Ed1. reflexivity. }
    rewrite Forall_forall in Hlt. auto.
Qed.

End ResultFacts.

(** ** The threads [train] starts, and how the generations end *)

Section GenerationFacts.
Variable initial_elo : Z.
Variable c : config.

Lemma threads_invariant_step l s s' :
  threads_invariant c s -> step initial_elo c l s = Some s' -> threads_invariant c s'.
Proof.
  unfold threads_invariant. intros Ht H.
  destruct (step_cases _ _ _ _ _ H) as [Hm|(i & o & Hth & _)]; clear H.
  - main_cases Hm;
      try rewrite E in *; auto;
      try rewrite length_app; cbn [length];
      repeat match goal with
        | Hb : (_ <? _) = true |- _ => apply Nat.ltb_lt in Hb
        | Hb : (_ <? _) = false |- _ => apply Nat.ltb_ge in Hb
        end; try lia;
      try (rewrite Ht; simpl; lia).
  - destruct (thread_step_frame _ _ _ _ Hth) as (w & w' & Ew & Et & Ed & _);
    rewrite Ed, Et, length_update;
    destruct (driver s); auto;
    rewrite Ht in Ew; destruct i; discriminate.
Qed.

Lemma reachable_threads_invariant s :
  reachable initial_elo c s -> threads_invariant c s.
Proof.
  induction 1 as [|s l s' _ IH H].
  - reflexivity.
  - eapply threads_invariant_step; eauto.
Qed.

(** X8.  [train] starts its threads one by one before the first
    generation and never another: no thread exists before the parity test
    has passed, [thread_id] threads exist while the loop of lines 92-96 is at
    [thread_id], and exactly [threads] exist from then on, to the return. *)
Theorem threads_are_started_once :
  forall s, reachable initial_elo c s ->
    length (live_threads s) <= threads c /\
    match driver s with
    | Called | Failed _ => live_threads s = []
    | Starting _ thread_id => length (live_threads s) = thread_id
    | _ => length (live_threads s) = threads c
    end.
Proof.
  intros s Hs. pose proof (reachable_threads_invariant s Hs) as Ht.
  unfold threads_invariant in Ht.
  destruct (driver s); try (split; [lia | exact Ht]).
  - rewrite Ht. split; [simpl; lia | reflexivity].
  - split; [lia | tauto].
  - rewrite Ht. split; [simpl; lia | reflexivity].
Qed.

Lemma complete_invariant_step k l s s' :
  (0 < population_size c)%Z ->
  cut_bound (Z.to_nat (population_size c)) (fraction_kept c) = inl k ->
  (1 <= k)%Z ->
  size_invariant c s -> refill_invariant c s ->
  complete_invariant c s -> step initial_elo c l s = Some s' -> complete_invariant c s'.
Proof.
  unfold complete_invariant. intros HP Hk Hk1 (Hsize & _ & Hsel) Hr Hc H.
  destruct (step_cases _ _ _ _ _ H) as [Hm|(i & o & Ht & _)]; clear H.
  - main_cases Hm;
      try rewrite E in *; cbn [population_of] in *; auto;
      try (specialize (Hsize _ eq_refl)); try tauto.
    + simpl in Hsize. lia.
    + rewrite Hsel, Hk in *. discriminate.
    + exfalso.
      match goal with
      | Hc : choice _ _ = None |- _ => apply choice_none in Hc; revert Hc
      end.
      eapply refill_has_survivor; eauto.
  - destruct (thread_step_frame _ _ _ _ Ht) as (w & w' & _ & _ & Ed & _).
    rewrite Ed. exact Hc.
Qed.

(** X2.  With a positive [population_size] and a bound
    [int(population_size * fraction_kept)] of the slice that is at least 1,
    the product being the binary64 one and finite, no statement of the [try]
    block raises: when the main thread reaches the [finally] block no
    exception is pending, and the population [train] returns has exactly
    [population_size] players, whatever the schedule, the shuffles, the
    random choices and the results of the matches. *)
Theorem train_returns_full_population :
  forall k,
    (0 < population_size c)%Z ->
    cut_bound (Z.to_nat (population_size c)) (fraction_kept c) = inl k ->
    (1 <= k)%Z ->
    forall s, reachable initial_elo c s ->
      (forall players pending, driver s = Finally players pending -> pending = None) /\
      (forall players, driver s = Returned players ->
         length players = Z.to_nat (population_size c)).
Proof.
  intros k HP Hk Hk1 s Hs.
  assert (Hc : complete_invariant c s).
  { induction Hs as [|s l s' Hs IH H].
    - exact I.
    - eapply complete_invariant_step; eauto.
      + apply reachable_size_invariant with (initial_elo := initial_elo). exact Hs.
      + apply reachable_refill_invariant with (initial_elo := initial_elo). exact Hs. }
  unfold complete_invariant in Hc. split.
  - intros players pending Ed. rewrite Ed in Hc. tauto.
  - intros players Ed. rewrite Ed in Hc. exact Hc.
Qed.

Lemma extinct_invariant_step l s s' :
  (0 < population_size c)%Z ->
  cut_bound (Z.to_nat (population_size c)) (fraction_kept c) = inl 0%Z ->
  1 <= generations c ->
  size_invariant c s -> refill_invariant c s ->
  extinct_invariant s -> step initial_elo c l s = Some s' -> extinct_invariant s'.
Proof.
  unfold extinct_invariant. intros HP Hk Hg (Hsize & _ & Hsel) Hr Hx H.
  destruct (step_cases _ _ _ _ _ H) as [Hm|(i & o & Ht & _)]; clear H.
  - main_cases Hm;
      try rewrite E in *; cbn [population_of] in *; auto;
      try (specialize (Hsize _ eq_refl)); try tauto.
    + match goal with
      | Hb : (_ <? generations c) = false |- _ => apply Nat.ltb_ge in Hb; lia
      end.
    + rewrite Hsel, Hk in *.
      match goal with
      | Hz : inl _ = inl _ |- _ => inversion Hz; subst
      end.
      auto.
    + rewrite Hsel, Hk in *. discriminate.
    + destruct Hx as [_ ->].
      match goal with
      | Hc : choice _ [] = Some _ |- _ => rewrite choice_empty in Hc; discriminate
      end.
    + unfold refill_invariant in Hr. rewrite E in Hr. destruct Hr as [-> _]. discriminate.
    + destruct Hx as [_ ->]. cbn [length Z.of_nat] in *.
      match goal with
      | Hb : (0 <? _)%Z = false |- _ => apply Z.ltb_ge in Hb; lia
      end.
  - destruct (thread_step_frame _ _ _ _ Ht) as (w & w' & _ & _ & Ed & _).
    rewrite Ed. exact Hx.
Qed.

(** X3.  With an even, positive [population_size], a bound
    [int(population_size * fraction_kept)] of the slice equal to 0, the
    product being the binary64 one, and at least one generation, [train]
    never raises and never gets a population to return: no generation after
    the first is started, the refill of the first starts with nobody and
    stops at its first [choice], the [IndexError] is pending when the
    [finally] block is entered, and if [train] returns, it returns the empty
    list. *)
Theorem train_returns_nothing_without_survivors :
  (0 < population_size c)%Z ->
  Z.even (population_size c) = true ->
  cut_bound (Z.to_nat (population_size c)) (fraction_kept c) = inl 0%Z ->
  1 <= generations c ->
  forall s, reachable initial_elo c s ->
    (forall e, driver s <> Failed e) /\
    (forall players generation,
       driver s = GenerationHead players generation -> generation = 0) /\
    (forall players generation i,
       driver s = Refilling players generation i ->
       players = [] /\
       forall r, step initial_elo c (MainRefill r) s
                 = Some (set_driver (Finally [] (Some IndexError)) s)) /\
    (forall players pending,
       driver s = Finally players pending ->
       players = [] /\ pending = Some IndexError) /\
    (forall players, driver s = Returned players -> players = []).
Proof.
  intros HP Heven Hk Hg s Hs.
  assert (Hx : extinct_invariant s).
  { clear Heven. induction Hs as [|s l s' Hs IH H].
    - exact I.
    - eapply extinct_invariant_step; eauto.
      + apply reachable_size_invariant with (initial_elo := initial_elo). exact Hs.
      + apply reachable_refill_invariant with (initial_elo := initial_elo). exact Hs. }
  pose proof (reachable_refill_invariant initial_elo c s Hs) as Hr.
  pose proof (reachable_raise_invariant initial_elo c s Hs) as Hraise.
  unfold extinct_invariant in Hx. split; [|split; [|split; [|split]]].
  - intros e Ed. unfold raise_invariant in Hraise. rewrite Ed in Hraise.
    destruct Hraise as (_ & Hodd & _). apply Hodd.
    rewrite Zmod_even, Heven. reflexivity.
  - intros players generation Ed. rewrite Ed in Hx. exact Hx.
  - intros players generation i Ed. rewrite Ed in Hx. destruct Hx as [_ ->].
    split; [reflexivity|]. intros r.
    cbn [step]. unfold main_step. rewrite Ed.
    unfold refill_invariant in Hr. rewrite Ed in Hr. destruct Hr as [-> _].
    cbn [length Z.of_nat].
    destruct (Z.ltb_spec 0 (population_size c)); [|lia].
    change (0 mod 2 =? 0) with true. cbv iota. rewrite choice_empty. reflexivity.
  - intros players pending Ed. rewrite Ed in Hx. exact Hx.
  - intros players Ed. rewrite Ed in Hx. exact Hx.
Qed.

End GenerationFacts.

(** ** Players leave the queue in pairs *)

Lemma even_to_nat (z : Z) : (z mod 2)%Z = 0%Z -> Nat.Even (Z.to_nat z).
Proof.
  intros H. exists (Z.to_nat (z / 2)).
  pose proof (Z.div_mod z 2 ltac:(lia)). lia.
Qed.

Lemma even_cases n m p :
  Nat.Even n -> Nat.Even p -> m = n \/ m + 2 = n \/ m = n + p -> Nat.Even m.
Proof.
  intros [x Hx] [y Hy] [H|[H|H]].
  - exists x. lia.
  - exists (x - 1). lia.
  - exists (x + y). lia.
Qed.

Lemma singles_app ws w :
  singles (ws ++ [w]) = singles ws + (if between_gets w then 1 else 0).
Proof.
  unfold singles. rewrite filter_app, length_app. simpl.
  destruct (between_gets w); reflexivity.
Qed.

Lemma singles_update i w w' ws :
  nth_error ws i = Some w ->
  singles (update i w' ws) + (if between_gets w then 1 else 0) =
  singles ws + (if between_gets w' then 1 else 0).
Proof.
  unfold singles. revert i.
  induction ws as [|x ws IH]; intros [|i] H; simpl in *; try discriminate.
  - inversion H; subst.
    destruct (between_gets w), (between_gets w'); simpl; lia.
  - specialize (IH i H). destruct (between_gets x); simpl; lia.
Qed.

Lemma singles_le_holders ws : singles ws <= holders ws.
Proof.
  unfold singles, holders. induction ws as [|w ws IH]; simpl; auto.
  destruct w; simpl; lia.
Qed.

Lemma terminated_outside ws :
  Forall (fun w => terminated w = true) ws -> holders ws = 0 /\ singles ws = 0.
Proof.
  unfold holders, singles. induction 1 as [|w ws Hw _ IH]; simpl; auto.
  destruct w; simpl in *; try discriminate; exact IH.
Qed.

Section PairFacts.
Variable initial_elo : Z.
Variable c : config.

Lemma unpaired_step l s s' :
  raise_invariant c s' -> size_invariant c s' ->
  Nat.Even (unpaired s) -> step initial_elo c l s = Some s' -> Nat.Even (unpaired s').
Proof.
  unfold unpaired. intros Hraise [Hsize _] Heven H.
  assert (HP : forall players, population_of (driver s') = Some players ->
                 Nat.Even (length players)).
  { intros players Hp. rewrite (Hsize _ Hp). apply even_to_nat.
    unfold raise_invariant in Hraise.
    destruct (driver s'); simpl in Hp; try discriminate; exact Hraise. }
  destruct (step_cases _ _ _ _ _ H) as [Hm|(i & o & Ht & _)]; clear H.
  - main_cases Hm;
      try rewrite E in *; cbn [to_enqueue length] in *;
      try rewrite singles_app; try rewrite length_app; cbn [between_gets length] in *;
      try (apply (even_cases _ _ _ Heven (HP _ eq_refl)); lia);
      try (apply (even_cases _ _ _ Heven Heven); lia).
  - rename Ht into H. unfold thread_step in H;
    destruct (nth_error (live_threads s) i) as [w|] eqn:Ew; [|discriminate];
    pose proof (singles_update i w) as Hu;
    invert_step H; state_simpl;
    match goal with
    | |- context [singles (update _ ?w' _)] =>
        specialize (Hu w' _ Ew); cbn [between_gets] in Hu
    end;
    cbn [length] in *;
    apply (even_cases _ _ _ Heven Heven); lia.
Qed.

Lemma reachable_unpaired s :
  reachable initial_elo c s -> Nat.Even (unpaired s).
Proof.
  induction 1 as [|s l s' Hs IH H].
  - exists 0. reflexivity.
  - assert (Hs' : reachable initial_elo c s') by (econstructor; eauto).
    eapply unpaired_step; eauto.
    + apply reachable_raise_invariant with (initial_elo := initial_elo). exact Hs'.
    + apply reachable_size_invariant with (initial_elo := initial_elo). exact Hs'.
Qed.

(** X5.  Players leave the queue in pairs.  In every state [train] can
    reach, the players queued, those still to be enqueued in the current
    sub-generation and the one held by a thread between its two gets add up
    to an even number, and at most one thread is between its gets.  So
    outside the enqueueing and the wait the queue is empty, or holds one
    player whose partner a thread has already taken: no player is left
    alone in the queue. *)
Theorem players_leave_in_pairs :
  forall s, reachable initial_elo c s ->
    Nat.Even (unpaired s) /\
    singles (live_threads s) <= 1 /\
    match driver s with
    | Enqueueing _ _ _ _ | Draining _ _ _ => True
    | _ => player_queue s = [] \/
           exists player, player_queue s = [player] /\ singles (live_threads s) = 1
    end.
Proof.
  intros s Hs.
  pose proof (reachable_unpaired s Hs) as Heven.
  pose proof (reachable_drain_invariant initial_elo c s Hs) as Hdrain.
  destruct (reachable_lock_invariant initial_elo c s Hs) as [Hh _].
  pose proof (singles_le_holders (live_threads s)) as Hle.
  assert (Hone : singles (live_threads s) <= 1)
    by (destruct (queue_lock s); lia).
  split; [exact Heven|]. split; [exact Hone|].
  assert (Hq : length (to_enqueue (driver s)) = 0 ->
               length (player_queue s) <= 1 ->
               player_queue s = [] \/
               exists player, player_queue s = [player] /\ singles (live_threads s) = 1).
  { intros Hrest Hlen. unfold unpaired in Heven. destruct Heven as [k Hk].
    destruct (player_queue s) as [|p [|p' q]]; simpl in *.
    - left. reflexivity.
    - right. exists p. split; [reflexivity | lia].
    - lia. }
  unfold drain_invariant in Hdrain.
  destruct (driver s); auto.
Qed.

(** X4.  When [train] has returned, the queue is empty, the lock is free,
    the quit flag is set and all [threads] threads have ended. *)
Theorem train_returns_with_empty_queue :
  forall s players,
    reachable initial_elo c s -> driver s = Returned players ->
    player_queue s = [] /\ queue_lock s = false /\ quit_event s = true /\
    length (live_threads s) = threads c /\
    Forall (fun w => terminated w = true) (live_threads s).
Proof.
  intros s players Hs Ed.
  pose proof (reachable_unpaired s Hs) as Heven.
  pose proof (reachable_drain_invariant initial_elo c s Hs) as Hdrain.
  destruct (reachable_lock_invariant initial_elo c s Hs) as [Hh _].
  destruct (reachable_shutdown_invariant initial_elo c s Hs) as (Hquit & Hjoin & _).
  pose proof (reachable_threads_invariant initial_elo c s Hs) as Hthreads.
  unfold unpaired, drain_invariant, threads_invariant in *.
  rewrite Ed in *. cbn [joined past_finally to_enqueue length] in *.
  destruct (terminated_outside _ Hjoin) as [Hh0 Hs0].
  rewrite Hs0 in Heven. rewrite Hh0 in Hh.
  repeat split; auto.
  - destruct Heven as [k Hk].
    destruct (player_queue s) as [|p [|p' q]]; simpl in *; auto; lia.
  - destruct (queue_lock s); auto; discriminate.
Qed.

End PairFacts.

(** ** No deadlock *)

Lemma holder_exists ws :
  1 <= holders ws ->
  exists i w, nth_error ws i = Some w /\ in_critical_section w = true.
Proof.
  unfold holders. induction ws as [|x ws IH]; simpl; [lia|].
  destruct (in_critical_section x) eqn:Ex.
  - intros _. exists 0, x. auto.
  - intros H. destruct (IH H) as (i & w & Hi & Hw). exists (S i), w. auto.
Qed.

Section ProgressFacts.
Variable initial_elo : Z.
Variable c : config.

(** Inside the locked section a thread never waits. *)
Lemma critical_thread_steps s i w :
  lock_invariant s ->
  nth_error (live_threads s) i = Some w -> in_critical_section w = true ->
  exists s', step initial_elo c (Thread i) s = Some s'.
Proof.
  intros [_ Hq] Ew Hw.
  assert (Hs : queue_suffices (length (player_queue s)) w)
    by (rewrite Forall_nth_error in Hq; eauto).
  cbn [step]. unfold thread_step. rewrite Ew.
  destruct w; simpl in *; try discriminate.
  - destruct (length (player_queue s) <? 2); eauto.
  - destruct (player_queue s); simpl in Hs; [lia | eauto].
  - destruct (player_queue s); simpl in Hs; [lia | eauto].
Qed.

(** X6.  [train] and its threads never deadlock.  In every state [train]
    can reach: a thread that has not ended can take its next step, unless it
    is waiting for the lock while another thread holds it; when the lock is
    held, the thread holding it can take its next step, so the lock is not
    held for ever; and the main thread has returned, has raised, can take a
    step, or is joining a thread that has not ended. *)
Theorem train_never_deadlocks :
  forall s, reachable initial_elo c s ->
    (forall i w, nth_error (live_threads s) i = Some w -> terminated w = false ->
       (w = AtAcquire /\ queue_lock s = true) \/
       exists l s', step initial_elo c l s = Some s' /\
                    (l = Thread i \/ exists o, l = ThreadMatch i o)) /\
    (queue_lock s = true ->
       exists i w s', nth_error (live_threads s) i = Some w /\
                      in_critical_section w = true /\
                      step initial_elo c (Thread i) s = Some s') /\
    ((exists players, driver s = Returned players) \/
     (exists e, driver s = Failed e) \/
     (exists l s', main_step initial_elo c l s = Some s') \/
     (exists players pending n w,
        driver s = Joining players pending n /\
        nth_error (live_threads s) n = Some w /\ terminated w = false)).
Proof.
  intros s Hs.
  pose proof (reachable_lock_invariant initial_elo c s Hs) as Hlock.
  split; [|split].
  - intros i w Ew Hw.
    destruct (in_critical_section w) eqn:Ecs.
    + right. destruct (critical_thread_steps s i w Hlock Ew Ecs) as [s' Hs'].
      exists (Thread i), s'. auto.
    + destruct w; simpl in *; try discriminate.
      * right. exists (Thread i). cbn [step]. unfold thread_step. rewrite Ew. eauto.
      * right. exists (Thread i). cbn [step]. unfold thread_step. rewrite Ew. eauto.
      * destruct (queue_lock s) eqn:El; [left; auto|].
        right. exists (Thread i). cbn [step]. unfold thread_step. rewrite Ew, El. eauto.
      * right. exists (ThreadMatch i Erred). cbn [step]. unfold thread_step.
        rewrite Ew. eauto.
  - intros El. pose proof Hlock as [Hh _]. rewrite El in Hh.
    destruct (holder_exists (live_threads s)) as (i & w & Ew & Hw); [lia|].
    destruct (critical_thread_steps s i w Hlock Ew Hw) as [s' Hs'].
    exists i, w, s'. auto.
  - unfold main_step.
    destruct (driver s) as [|players n|players g|players g k|players g k
                            |players g k rest|players g k|players g
                            |players g|players g i
                            |players pending|players pending n|players|e] eqn:Ed;
      eauto.
    + right. right. left. exists Main.
      destruct (negb (population_size c mod 2 =? 0)%Z); eauto.
      destruct (new_players initial_elo (Z.to_nat (population_size c)) (heap s)); eauto.
    + right. right. left. exists Main.
      destruct (n <? threads c); eauto.
    + right. right. left. exists Main.
      destruct (g <? generations c); eauto. destruct players; eauto.
    + right. right. left. exists Main.
      destruct (k <? sub_generations c); eauto.
    + right. right. left. exists (MainShuffle players).
      rewrite is_permutation_refl. eauto.
    + right. right. left. exists Main. destruct rest; eauto.
    + right. right. left. exists Main.
      destruct (1 <? length (player_queue s)); eauto.
    + right. right. left. exists (MainSort players).
      rewrite is_permutation_refl. destruct (quiescent s); eauto.
    + right. right. left. exists Main.
      destruct (cut_bound (length players) (fraction_kept c)); eauto.
    + right. right. left. exists (MainRefill 0). cbn [copy NNPlayer_new].
      destruct (Z.of_nat (length players) <? population_size c)%Z; eauto.
      destruct (i mod 2 =? 0); eauto.
      destruct (choice 0 players); eauto.
    + right. right. left. exists Main. eauto.
    + destruct (nth_error (live_threads s) n) as [w|] eqn:Ew.
      * destruct (terminated w) eqn:Et.
        -- right. right. left. exists Main. eauto.
        -- right. right. right. exists players, pending, n, w. auto.
      * right. right. left. exists Main. eauto.
Qed.

(** ** A run without threads *)

Lemma idle_invariant_step l s s' :
  threads c = 0 -> (2 <= population_size c)%Z ->
  (population_size c mod 2)%Z = 0%Z ->
  1 <= generations c -> 1 <= sub_generations c ->
  size_invariant c s ->
  idle_invariant s -> step initial_elo c l s = Some s' -> idle_invariant s'.
Proof.
  unfold idle_invariant. intros Ht HP Heven Hg Hk [Hsize _] [Hnone Hidle] H.
  destruct (step_cases _ _ _ _ _ H) as [Hm|(i & o & Hth & _)]; clear H.
  2:{ unfold thread_step in Hth; rewrite Hnone in Hth; destruct i; discriminate. }
  main_cases Hm;
    try rewrite E in *; try contradiction;
    cbn [population_of] in *;
    try specialize (Hsize _ eq_refl);
    repeat match goal with
      | Hb : (_ <? _) = true |- _ => apply Nat.ltb_lt in Hb
      | Hb : (_ <? _) = false |- _ => apply Nat.ltb_ge in Hb
      | Hb : negb (_ =? _)%Z = true |- _ =>
          apply negb_true_iff, Z.eqb_neq in Hb; contradiction
      end;
    try (exfalso; lia);
    (split; [assumption|]);
    try rewrite length_app; cbn [length] in *;
    try match type of Hidle with
        | _ /\ _ => destruct Hidle as [Hzero Hidle]
        end;
    try rewrite Hidle; cbn [length] in *;
    auto; try lia.
Qed.
(** X7.  With [threads=0], an even [population_size] of at least 2, and at
    least one generation and one sub-generation, [train] never returns and
    never raises: no thread exists, the main thread enqueues the whole
    population once and then stays for ever in the wait of the first
    sub-generation, the selection being never reached. *)
Theorem train_without_threads_never_returns :
  threads c = 0 -> (2 <= population_size c)%Z ->
  Z.even (population_size c) = true ->
  1 <= generations c -> 1 <= sub_generations c ->
  forall s, reachable initial_elo c s ->
    live_threads s = [] /\
    (forall players, driver s <> Returned players) /\
    (forall e, driver s <> Failed e) /\
    (forall players generation, driver s <> Selecting players generation) /\
    (forall players generation sub_generation,
       driver s = Draining players generation sub_generation ->
       length (player_queue s) = Z.to_nat (population_size c) /\
       step initial_elo c Main s = Some s).
Proof.
  intros Ht HP Heven Hg Hk s Hs.
  assert (Hmod : (population_size c mod 2)%Z = 0%Z).
  { rewrite Zmod_even, Heven. reflexivity. }
  assert (Hidle : idle_invariant s).
  { induction Hs as [|s l s' Hs IH H].
    - split; reflexivity.
    - eapply idle_invariant_step; eauto.
      apply reachable_size_invariant with (initial_elo := initial_elo). exact Hs. }
  destruct Hidle as [Hnone Hidle].
  split; [exact Hnone|].
  repeat split; try (intros; intros Ed; rewrite Ed in Hidle; exact Hidle).
  - rewrite H in Hidle. rewrite Hidle.
    apply (reachable_population_size initial_elo c s players Hs). rewrite H. reflexivity.
  - cbn [step]. unfold main_step. rewrite H.
    rewrite H in Hidle.
    pose proof (reachable_population_size initial_elo c s players Hs) as Hlen.
    rewrite H in Hlen. specialize (Hlen eq_refl).
    destruct (Nat.ltb_spec 1 (length (player_queue s))); [reflexivity | lia].
Qed.

End ProgressFacts.

(** ** Who writes to a player *)

Section FrameFacts.
Variable initial_elo : Z.
Variable c : config.

(** X11.  Only a match that ends writes to an existing player, and only to
    its two players.  Every other step, the refill included, leaves each
    player object that exists as it is and at most adds new ones; a match
    adds none and leaves every player but its two as it is. *)
Theorem only_matches_change_players :
  forall l s s', step initial_elo c l s = Some s' ->
    length (heap s) <= length (heap s') /\
    match l with
    | ThreadMatch i (Rated _ _) =>
        length (heap s') = length (heap s) /\
        exists player_one player_two,
          nth_error (live_threads s) i = Some (AtPlay player_one player_two) /\
          forall r, r <> player_one -> r <> player_two ->
                    nth_error (heap s') r = nth_error (heap s) r
    | _ =>
        forall r, r < length (heap s) -> nth_error (heap s') r = nth_error (heap s) r
    end.
Proof.
  intros l s s' H.
  split; [eapply heap_never_shrinks; eauto|].
  destruct l as [|order|order|r|i|i [e1 e2|]]; cbn [step] in H.
  1-4: main_cases H; auto;
    try match goal with
    | Hn : new_players _ _ _ = _ |- _ =>
        exact (new_players_keeps_store _ _ _ _ _ Hn)
    end.
  - match goal with
    | |- context [mutate ?rate _ (_ ++ [mkNNPlayer _ (Some ?p) _])] =>
        destruct (copy_mutate_store rate p (heap s)) as (_ & Hold & _)
    end.
    exact Hold.
  - intros r' Hr. apply nth_error_app1. exact Hr.
  - unfold thread_step in H.
    destruct (nth_error (live_threads s) i) as [w|] eqn:Ew; [|discriminate].
    invert_step H; state_simpl; auto.
  - unfold thread_step in H.
    destruct (nth_error (live_threads s) i) as [w|] eqn:Ew; [|discriminate].
    destruct w; try discriminate. inversion H; subst; clear H. state_simpl.
    rewrite !set_elo_length. split; [reflexivity|].
    exists player_one, player_two. split; [reflexivity|].
    intros r H1 H2. rewrite !set_elo_other by auto. reflexivity.
  - unfold thread_step in H.
    destruct (nth_error (live_threads s) i) as [w|] eqn:Ew; [|discriminate].
    destruct w; try discriminate. inversion H; subst; clear H. state_simpl. auto.
Qed.

End FrameFacts.

(** ** No player is matched with itself *)

Lemma distinct_pairs_NoDup_bounded n :
  forall l, length l <= n -> NoDup l -> distinct_pairs l.
Proof.
  induction n as [|n IH]; intros [|a [|b l]] Hlen Hnd; simpl in *; auto; try lia.
  inversion Hnd as [|? ? Ha Hnd']; subst.
  inversion Hnd' as [|? ? Hb Hnd'']; subst.
  split.
  - intros ->. apply Ha. left. reflexivity.
  - apply IH; auto. lia.
Qed.

Lemma distinct_pairs_NoDup l : NoDup l -> distinct_pairs l.
Proof. apply (distinct_pairs_NoDup_bounded (length l)). lia. Qed.

Lemma distinct_pairs_app_bounded n :
  forall x y, length x <= n -> Nat.Even (length x) ->
    distinct_pairs x -> distinct_pairs y -> distinct_pairs (x ++ y).
Proof.
  induction n as [|n IH]; intros [|a [|b x]] y Hlen Heven Hx Hy; simpl in *; auto;
    try lia; try (destruct Heven as [k Hk]; lia).
  destruct Hx as [Hab Hx]. split; auto.
  apply IH; auto; [lia|].
  destruct Heven as [k Hk]. exists (k - 1). lia.
Qed.

Lemma distinct_pairs_app x y :
  Nat.Even (length x) -> distinct_pairs x -> distinct_pairs y -> distinct_pairs (x ++ y).
Proof. apply (distinct_pairs_app_bounded (length x)). lia. Qed.

Lemma first_of_pair_length ws :
  length (flat_map first_of_pair ws) = singles ws.
Proof.
  unfold singles. induction ws as [|w ws IH]; simpl; auto.
  rewrite length_app, IH. destruct w; reflexivity.
Qed.

Lemma first_of_pair_outside w :
  in_critical_section w = false -> first_of_pair w = [].
Proof. destruct w; simpl; auto; discriminate. Qed.

(** A step of a thread that neither takes nor gives up a first player
    leaves the held players as they are. *)
Lemma first_of_pair_update_same i w w' ws :
  nth_error ws i = Some w -> first_of_pair w = first_of_pair w' ->
  flat_map first_of_pair (update i w' ws) = flat_map first_of_pair ws.
Proof.
  revert i. induction ws as [|x ws IH]; intros [|i] H E; simpl in *; try discriminate.
  - inversion H; subst. rewrite E. reflexivity.
  - rewrite (IH i H E). reflexivity.
Qed.

(** The thread inside the locked section is the only one that can hold a
    first player. *)
Lemma first_of_pair_alone i w w' ws :
  holders ws <= 1 ->
  nth_error ws i = Some w -> in_critical_section w = true ->
  flat_map first_of_pair ws = first_of_pair w /\
  flat_map first_of_pair (update i w' ws) = first_of_pair w'.
Proof.
  unfold holders. revert i.
  induction ws as [|x ws IH]; intros [|i] Hh Hi Hw; simpl in *; try discriminate.
  - inversion Hi; subst. rewrite Hw in Hh. simpl in Hh.
    assert (Hnone : flat_map first_of_pair ws = []).
    { clear - Hh. induction ws as [|y ws IH]; simpl in *; auto.
      destruct (in_critical_section y) eqn:Ey; simpl in Hh; [lia|].
      rewrite (first_of_pair_outside y Ey). apply IH. exact Hh. }
    rewrite Hnone, !app_nil_r. auto.
  - pose proof (holders_positive _ _ _ Hi Hw) as Hp. unfold holders in Hp.
    destruct (in_critical_section x) eqn:Ex; simpl in Hh; [lia|].
    rewrite (first_of_pair_outside x Ex). simpl. apply IH; auto.
Qed.

Section PairingFacts.
Variable initial_elo : Z.
Variable c : config.

Lemma pairing_invariant_step l s s' :
  lock_invariant s -> Nat.Even (unpaired s) -> valid_invariant s' ->
  pairing_invariant s -> step initial_elo c l s = Some s' -> pairing_invariant s'.
Proof.
  unfold pairing_invariant, waiting_line.
  intros [Hh Hq] Heven Hvalid [Hline Hopp] H.
  assert (Hone : holders (live_threads s) <= 1) by (destruct (queue_lock s); lia).
  destruct l as [|order|order|r|i|i o]; cbn [step] in H.
  1-4: main_cases H;
    try rewrite E in *; cbn [to_enqueue] in *;
    try rewrite flat_map_app; cbn [flat_map first_of_pair];
    rewrite ?app_nil_r in *;
    (split; [| try (apply Forall_app; split; [exact Hopp | repeat constructor]);
               try exact Hopp]);
    try exact Hline;
    try (rewrite <- app_assoc; exact Hline).
  - (* the shuffle *)
    rewrite app_assoc. apply distinct_pairs_app; auto.
    + unfold unpaired in Heven. rewrite E in Heven. cbn [to_enqueue length] in Heven.
      destruct Heven as [k Hk]. exists k.
      rewrite length_app, first_of_pair_length. lia.
    + apply distinct_pairs_NoDup.
      destruct (Hvalid order) as [Hnd _]; [left; reflexivity | exact Hnd].
  - (* a thread *)
    unfold thread_step in H.
    destruct (nth_error (live_threads s) i) as [w|] eqn:Ew; [|discriminate].
    destruct w; invert_step H; state_simpl;
      try (rewrite (first_of_pair_update_same _ _ _ _ Ew) by reflexivity;
           split; [exact Hline | apply Forall_update; simpl; auto]; fail).
    + destruct (first_of_pair_alone i AtGetOne (AtGetTwo r) _ Hone Ew eq_refl) as [E1 E2].
      rewrite E2. rewrite E1 in Hline. split; [exact Hline|].
      apply Forall_update; simpl; auto.
    + destruct (first_of_pair_alone i (AtGetTwo player_one) (AtPlay player_one r) _
                  Hone Ew eq_refl) as [E1 E2].
      rewrite E2. rewrite E1 in Hline. simpl in Hline. destruct Hline as [Hne Hline].
      split; [exact Hline|]. apply Forall_update; simpl; auto.
  - (* a match *)
    unfold thread_step in H.
    destruct (nth_error (live_threads s) i) as [w|] eqn:Ew; [|discriminate].
    destruct w; invert_step H; state_simpl;
      rewrite (first_of_pair_update_same _ _ _ _ Ew) by reflexivity;
      (split; [exact Hline | apply Forall_update; simpl; auto]).
Qed.

Lemma reachable_pairing_invariant s :
  reachable initial_elo c s -> pairing_invariant s.
Proof.
  induction 1 as [|s l s' Hs IH H].
  - split; simpl; auto.
  - eapply pairing_invariant_step; eauto.
    + apply reachable_lock_invariant with (initial_elo := initial_elo) (c := c). exact Hs.
    + apply reachable_unpaired with (initial_elo := initial_elo) (c := c). exact Hs.
    + apply reachable_valid_invariant with (initial_elo := initial_elo) (c := c).
      econstructor; eauto.
Qed.

(** X12.  The population never holds a player twice, and every player of
    it exists: a shuffle only reorders, the selection keeps distinct players,
    and every player the refill appends is an object created then. *)
Theorem population_has_no_duplicates :
  forall s players,
    reachable initial_elo c s ->
    population_of (driver s) = Some players ->
    NoDup players /\ Forall (fun r => r < length (heap s)) players.
Proof.
  intros s players Hs Hp.
  apply (reachable_valid_invariant initial_elo c s Hs players). left. exact Hp.
Qed.

(** X13.  No player is matched with itself: in every state [train] can
    reach, the two players of a thread that is about to play are different
    objects; and the players still on their way into a match (the one a
    thread holds, the queue, the rest of the enqueueing), taken two by two in
    that order, form pairs of different players. *)
Theorem no_player_meets_itself :
  forall s, reachable initial_elo c s ->
    (forall i player_one player_two,
       nth_error (live_threads s) i = Some (AtPlay player_one player_two) ->
       player_one <> player_two) /\
    distinct_pairs (waiting_line s).
Proof.
  intros s Hs. destruct (reachable_pairing_invariant s Hs) as [Hline Hopp].
  split; [|exact Hline].
  intros i player_one player_two Ew.
  rewrite Forall_nth_error in Hopp. exact (Hopp i _ Ew).
Qed.

End PairingFacts.

(** ** Fractions outside the unit interval *)

Section FractionFacts.
Variable initial_elo : Z.
Variable c : config.

(** X9.  When the bound [int(population_size * fraction_kept)] of the
    slice, the product being the binary64 one and finite, is at least
    [population_size], as it is for [fraction_kept = 1.0], a generation's
    selection only sorts.  Of the function of lines 101-111: every player is
    kept, none is created, no random choice is made, and the store is left as
    it was.  Of [train], in every state it can reach with the main thread in
    the refilling loop: [players] is complete, and the step of the loop is the
    test that ends it. *)
Theorem full_fraction_only_sorts :
  forall k,
    cut_bound (Z.to_nat (population_size c)) (fraction_kept c) = inl k ->
    (population_size c <= k)%Z ->
    (forall (rnd : list nat) (h : store) (players : list ref),
       length players = Z.to_nat (population_size c) ->
       evolve initial_elo (mutation_rate c) (population_size c) (fraction_kept c)
         rnd h players
       = (Normal, h, sort_reverse (elo_of h) players)) /\
    (forall s players generation i,
       reachable initial_elo c s -> driver s = Refilling players generation i ->
       length players = Z.to_nat (population_size c) /\
       forall r, step initial_elo c (MainRefill r) s
                 = Some (set_driver (GenerationHead players (S generation)) s)).
Proof.
  intros k Hk Hle. split.
  - intros rnd h players Hlen.
    unfold evolve. rewrite select_cut, Hlen, Hk.
    destruct (Z.ltb_spec k 0) as [Hneg|Hpos].
    + assert (Hnil : players = []) by (destruct players; simpl in *; [auto | lia]).
      subst players. cbn [sort_reverse slice_to length].
      unfold slice_to. cbn [length firstn Z.of_nat].
      destruct (k <? 0)%Z; rewrite firstn_nil; cbn [length Z.of_nat];
        replace (Z.to_nat (population_size c - 0)) with 0 by lia; reflexivity.
    + rewrite slice_to_firstn by exact Hpos.
      rewrite firstn_all2 by (rewrite sort_reverse_length; lia).
      rewrite sort_reverse_length.
      replace (Z.to_nat (population_size c - Z.of_nat (length players))) with 0 by lia.
      reflexivity.
  - intros s players generation i Hs Ed.
    pose proof (reachable_refill_invariant initial_elo c s Hs) as Hr.
    pose proof (reachable_size_invariant initial_elo c s Hs) as (_ & _ & Hsize).
    unfold refill_invariant in Hr. rewrite Ed in Hr, Hsize.
    destruct Hr as (_ & k' & ranked & added & Hlen & Hk' & Hp & _).
    rewrite Hlen, Hk in Hk'. inversion Hk'; subst k'.
    assert (Hall : length players = Z.to_nat (population_size c)).
    { destruct (Z.ltb_spec k 0) as [Hneg|Hpos].
      - lia.
      - rewrite slice_to_firstn in Hp by exact Hpos.
        rewrite firstn_all2 in Hp by lia.
        rewrite Hp, length_app in *. lia. }
    split; [exact Hall|]. intros r.
    cbn [step]. unfold main_step. rewrite Ed.
    destruct (Z.ltb_spec (Z.of_nat (length players)) (population_size c)); [lia|].
    reflexivity.
Qed.

(** X10.  A negative [fraction_kept] is not refused.  In every state
    [train] can reach with the main thread at the cut, when the bound
    [int(population_size * fraction_kept)] of the slice is a negative number
    [k], the product being the binary64 one, the cut drops the last [-k]
    players of the sorted list, all of them when there are no more, and goes
    on to the refill with the rest. *)
Theorem select_with_negative_fraction :
  forall k,
    cut_bound (Z.to_nat (population_size c)) (fraction_kept c) = inl k ->
    (k < 0)%Z ->
    forall s ranked generation,
      reachable initial_elo c s -> driver s = Cutting ranked generation ->
      let kept := firstn (Z.to_nat (population_size c + k)) ranked in
      step initial_elo c Main s = Some (set_driver (Refilling kept generation 0) s) /\
      length kept = Z.to_nat (population_size c + k) /\
      ranked = kept ++ skipn (Z.to_nat (population_size c + k)) ranked.
Proof.
  intros k Hk Hneg s ranked generation Hs Ed kept.
  pose proof (reachable_size_invariant initial_elo c s Hs) as (_ & _ & Hsize).
  rewrite Ed in Hsize.
  assert (Hslice : slice_to k ranked = kept).
  { unfold slice_to, kept. destruct (Z.ltb_spec k 0); [|lia].
    destruct ranked as [|p ranked]; [rewrite !firstn_nil; reflexivity|].
    f_equal. simpl length in *. lia. }
  split; [|split].
  - cbn [step]. unfold main_step. rewrite Ed, Hsize, Hk, Hslice. reflexivity.
  - unfold kept. rewrite length_firstn. lia.
  - unfold kept. symmetry. apply firstn_skipn.
Qed.

End FractionFacts.

(** ** The runs of the examples *)

Lemma run_from_initial initial_elo c ls s :
  run initial_elo c ls initial = Some s -> reachable initial_elo c s.
Proof. apply run_reachable. constructor. Qed.

(** C1: the failing run.  [train(2, 0.5, 1, 1, 0.5, threads=1)]: the thread
    takes the two players off the queue, the main thread finds the queue
    empty, leaves the wait of the sub-generation and is back from
    [run_generation], about to sort, while the only match of the
    sub-generation has not been played and no rating has changed. *)
Lemma sub_generation_ends_before_match :
  exists s,
    run example_elo two_players early_selection_run initial = Some s /\
    driver s = Selecting [0; 1] 0 /\
    player_queue s = [] /\
    live_threads s = [AtPlay 0 1] /\
    heap s = [mkNNPlayer 1500 None []; mkNNPlayer 1500 None []].
Proof.
  eexists. split; [vm_compute; reflexivity|]. repeat split.
Qed.

(** C3: the claim fails.  [train(2, 0.5, 1, 2, 0.5, threads=1)]: player 1
    is enqueued for the second sub-generation while the match of the first
    sub-generation, between players 0 and 1, has not been played. *)
Lemma next_sub_generation_overtakes_match :
  exists s,
    run example_elo two_rounds early_enqueue_run initial = Some s /\
    driver s = Enqueueing [1; 0] 0 1 [0] /\
    player_queue s = [1] /\
    live_threads s = [AtPlay 0 1] /\
    heap s = [mkNNPlayer 1500 None []; mkNNPlayer 1500 None []].
Proof.
  eexists. split; [vm_compute; reflexivity|]. repeat split.
Qed.

(** C4: the failing input.  A population of four with [fraction_kept] one
    half: the selection keeps players 0 and 2, and both replacements are
    mutated copies, of players 0 and 2; none comes from [NNPlayer()]. *)
Lemma refill_of_four_makes_two_copies :
  let h := [mkNNPlayer 1516 None []; mkNNPlayer 1484 None [];
            mkNNPlayer 1516 None []; mkNNPlayer 1484 None []] in
  evolve example_elo (1 # 2) 4 0.5 [0; 1] h [0; 1; 2; 3]
  = (Normal,
     h ++ [mkNNPlayer 1516 (Some 0) [(1 # 2)%Q]; mkNNPlayer 1516 (Some 2) [(1 # 2)%Q]],
     [0; 2; 4; 5]).
Proof. vm_compute. reflexivity. Qed.

(** C5: the claim fails.  [train(4, 0.75, 1, 1, 0.5, threads=1)], the first
    player of each match winning: the population returned is rated 1516,
    1516, 1484, 1516. *)
Lemma train_result_not_sorted :
  exists s players,
    run example_elo four_players four_players_run initial = Some s /\
    driver s = Returned players /\
    map (elo_of (heap s)) players = [1516; 1516; 1484; 1516]%Z /\
    ~ descending (elo_of (heap s)) players.
Proof.
  eexists. eexists. split; [vm_compute; reflexivity|].
  split; [reflexivity|]. split; [reflexivity|].
  intros H. apply descendingb_spec in H. vm_compute in H. discriminate.
Qed.

(** C6: the claim fails.  Ten players and [fraction_kept = 0.3]: the float
    that [0.3] denotes is below three tenths, so that
    [floor(10 * fraction_kept)] is 2; the product of line 102 is rounded to
    3.0, and three players are kept.  Read in decimal fractions the claim
    fails the other way: [floor(50 * 0.58)] is 29, and the product of line
    102 is below 29, so that 28 of fifty players are kept. *)
Lemma select_cut_is_rounded :
  (float_value three_tenths < 3 # 10)%Q /\
  Qfloor (inject_Z (Z.of_nat (length ten_players)) * float_value three_tenths) = 2%Z /\
  cut_bound (length ten_players) three_tenths = inl 3%Z /\
  select (fun x => x) three_tenths ten_players = (Normal, [10; 9; 8]%Z) /\
  Qfloor (inject_Z 50 * (58 # 100)) = 29%Z /\
  cut_bound 50 fifty_eight_hundredths = inl 28%Z.
Proof.
  repeat split; vm_compute; reflexivity.
Qed.

(** C8: the claim fails.  [train(2, 0.5, 1, 1, 0.5, threads=1)] with a match
    that raises: the thread ends with the exception, and [train] returns a
    population. *)
Lemma failed_match_is_swallowed :
  exists s,
    run example_elo two_players failed_match_run initial = Some s /\
    live_threads s = [Crashed MatchError] /\
    driver s = Returned [0; 2].
Proof.
  eexists. split; [vm_compute; reflexivity|]. repeat split.
Qed.

(** C10: the claim fails.  For a population of size 0, which is even, the
    selection leaves nothing, [floor(0 * fraction_kept)] is 0, and the
    refill ends normally without a [choice]; [train] itself fails earlier,
    at [players[0]] in line 99.  And for six players and [fraction_kept]
    the float [1 / 6], which is below one sixth, [floor(6 * fraction_kept)]
    is 0, while the product of line 102 is rounded to 1.0: one player is
    kept and the refill ends normally. *)
Lemma empty_population_makes_no_choice :
  (Z.even 0 = true /\
   Qfloor (inject_Z 0 * float_value 0.5) = 0%Z /\
   select (elo_of []) 0.5 (@nil ref) = (Normal, []) /\
   evolve example_elo (1 # 2) 0 0.5 [] [] [] = (Normal, [], []) /\
   exists s,
     run example_elo no_players [Main; Main; Main; Main] initial = Some s /\
     driver s = Finally [] (Some IndexError)) /\
  (Z.even 6 = true /\
   (float_value one_sixth < 1 # 6)%Q /\
   Qfloor (inject_Z 6 * float_value one_sixth) = 0%Z /\
   cut_bound 6 one_sixth = inl 1%Z /\
   select (elo_of six_new_players) one_sixth [0; 1; 2; 3; 4; 5] = (Normal, [0]) /\
   exists h',
     evolve example_elo (1 # 2) 6 one_sixth [0; 0; 0; 0; 0] six_new_players
       [0; 1; 2; 3; 4; 5]
     = (Normal, h', [0; 6; 7; 8; 9; 10])).
Proof.
  split.
  - repeat split. eexists. split; [vm_compute; reflexivity|]. reflexivity.
  - repeat split; try (vm_compute; reflexivity).
    eexists. vm_compute. reflexivity.
Qed.

(** *** Instances of the theorems *)

Lemma four_players_run_end :
  run example_elo four_players four_players_run initial = Some four_players_end.
Proof. vm_compute. reflexivity. Qed.

Lemma four_players_end_reachable :
  reachable example_elo four_players four_players_end.
Proof. exact (run_from_initial _ _ _ _ four_players_run_end). Qed.

Lemma four_players_selecting_reachable :
  reachable example_elo four_players four_players_selecting.
Proof.
  apply (run_from_initial _ _ (four_players_matches ++ leave_wait)).
  vm_compute. reflexivity.
Qed.

Lemma four_players_cutting_reachable :
  reachable example_elo four_players four_players_cutting.
Proof.
  apply (run_from_initial _ _ (four_players_matches ++ leave_wait ++ [MainSort []])).
  vm_compute. reflexivity.
Qed.

Lemma four_players_refilling_reachable :
  reachable example_elo four_players four_players_refilling.
Proof.
  apply (run_from_initial _ _ (four_players_matches ++ leave_wait ++ [MainSort []; Main])).
  vm_compute. reflexivity.
Qed.

Lemma two_players_one_taken_reachable :
  reachable example_elo two_players two_players_one_taken.
Proof.
  apply (run_from_initial _ _ (enqueue_first [0; 1] ++ repeat (Thread 0) 5)).
  vm_compute. reflexivity.
Qed.

Lemma two_players_pair_taken_reachable :
  reachable example_elo two_players two_players_pair_taken.
Proof.
  apply (run_from_initial _ _ (enqueue_first [0; 1] ++ take_pair 0)).
  vm_compute. reflexivity.
Qed.

Lemma two_players_waiting_reachable :
  reachable example_elo two_players two_players_waiting.
Proof.
  apply (run_from_initial _ _ (enqueue_first [0; 1])). vm_compute. reflexivity.
Qed.


Lemma no_survivors_end_reachable :
  reachable example_elo no_survivors no_survivors_end.
Proof.
  apply (run_from_initial _ _ no_survivors_run). vm_compute. reflexivity.
Qed.

Lemma no_survivors_refilling_reachable :
  reachable example_elo no_survivors no_survivors_refilling.
Proof.
  apply (run_from_initial _ _
           (enqueue_first [0; 1]
            ++ take_pair 0 ++ [ThreadMatch 0 (Rated 1516 1484)]
            ++ leave_wait ++ [MainSort []; Main])).
  vm_compute. reflexivity.
Qed.

Lemma huge_fraction_run_end :
  run example_elo huge_fraction huge_fraction_run initial = Some huge_fraction_end.
Proof. vm_compute. reflexivity. Qed.

Lemma negative_fraction_cutting_reachable :
  reachable example_elo negative_fraction negative_fraction_cutting.
Proof.
  apply (run_from_initial _ _
           (enqueue_first [0; 1]
            ++ take_pair 0 ++ [ThreadMatch 0 (Rated 1484 1516)]
            ++ leave_wait ++ [MainSort []])).
  vm_compute. reflexivity.
Qed.

Lemma no_threads_waiting_reachable :
  reachable example_elo no_threads no_threads_waiting.
Proof.
  apply (run_from_initial _ _ no_threads_run). vm_compute. reflexivity.
Qed.


Lemma drain_polls_queue_size_witness :
  driver two_players_waiting = Draining [0; 1] 0 0 /\
  step example_elo two_players Main two_players_waiting = Some two_players_waiting /\
  length (player_queue two_players_waiting) <= 2 + 1.
Proof.
  split; [reflexivity|].
  pose proof (drain_polls_queue_size example_elo two_players two_players_waiting
                two_players_waiting_reachable) as [Hpoll Hbound].
  split.
  - exact (Hpoll [0; 1] 0 0 eq_refl).
  - exact Hbound.
Defined.

Lemma train_returns_last_refill_witness :
  driver four_players_end = Returned [0; 2; 1; 4] /\
  ((no_sort four_players_run = true /\
    [0; 2; 1; 4] = seq 0 (Z.to_nat (population_size four_players)) /\
    (generations four_players = 0 \/ (population_size four_players <= 0)%Z)) \/
   (exists ls1 order ls2 s1 players generation ranked,
      four_players_run = ls1 ++ MainSort order :: ls2 /\ no_sort ls2 = true /\
      run example_elo four_players ls1 initial = Some s1 /\
      driver s1 = Selecting players generation /\
      ranked_from s1 players ranked /\
      (quiescent s1 = true -> descending (elo_of (heap four_players_end)) ranked) /\
      selection_outcome four_players (length (heap s1)) ranked
        (heap four_players_end) [0; 2; 1; 4])) /\
  driver huge_fraction_end = Returned [1; 0] /\
  ((no_sort huge_fraction_run = true /\
    [1; 0] = seq 0 (Z.to_nat (population_size huge_fraction)) /\
    (generations huge_fraction = 0 \/ (population_size huge_fraction <= 0)%Z)) \/
   (exists ls1 order ls2 s1 players generation ranked,
      huge_fraction_run = ls1 ++ MainSort order :: ls2 /\ no_sort ls2 = true /\
      run example_elo huge_fraction ls1 initial = Some s1 /\
      driver s1 = Selecting players generation /\
      ranked_from s1 players ranked /\
      (quiescent s1 = true -> descending (elo_of (heap huge_fraction_end)) ranked) /\
      selection_outcome huge_fraction (length (heap s1)) ranked
        (heap huge_fraction_end) [1; 0])).
Proof.
  split; [reflexivity|]. split; [|split; [reflexivity|]].
  - exact (train_returns_last_refill example_elo four_players four_players_run
             four_players_end [0; 2; 1; 4] four_players_run_end eq_refl).
  - exact (train_returns_last_refill example_elo huge_fraction huge_fraction_run
             huge_fraction_end [1; 0] huge_fraction_run_end eq_refl).
Defined.

Lemma select_keeps_top_fraction_witness :
  (driver four_players_selecting = Selecting [0; 1; 2; 3] 0 /\
   NoDup [0; 1; 2; 3] /\
   length [0; 1; 2; 3] = Z.to_nat (population_size four_players)) /\
  (driver four_players_cutting = Cutting [0; 2; 1; 3] 0 /\
   step example_elo four_players Main four_players_cutting
   = Some (set_driver (Refilling [0; 2; 1] 0 0) four_players_cutting)).
Proof.
  split.
  - split; [reflexivity|].
    pose proof (proj1 (select_keeps_top_fraction example_elo four_players
                         four_players_selecting four_players_selecting_reachable)
                  [0; 1; 2; 3] 0 eq_refl) as (Hnd & Hlen & _).
    split; [exact Hnd | exact Hlen].
  - split; [reflexivity|].
    pose proof (proj2 (select_keeps_top_fraction example_elo four_players
                         four_players_cutting four_players_cutting_reachable)
                  [0; 2; 1; 3] 0 eq_refl) as (_ & _ & _ & Hcut).
    exact (proj1 Hcut).
Defined.

Lemma odd_population_fails_first_witness :
  Z.odd (population_size three_players) = true /\
  step example_elo three_players Main initial
  = Some (set_driver (Failed OddPopulationError) initial).
Proof.
  split; [reflexivity|].
  exact (proj1 (proj1 (odd_population_fails_first example_elo three_players) eq_refl)).
Defined.

Lemma match_failure_stays_in_thread_witness :
  nth_error (live_threads two_players_pair_taken) 0 = Some (AtPlay 0 1) /\
  step example_elo two_players (ThreadMatch 0 Erred) two_players_pair_taken
  = Some (set_threads (update 0 (Crashed MatchError) (live_threads two_players_pair_taken))
            two_players_pair_taken).
Proof.
  split; [reflexivity|].
  exact (proj1 (match_failure_stays_in_thread example_elo two_players two_players_pair_taken
                  two_players_pair_taken_reachable)
               0 0 1 eq_refl).
Defined.


Lemma refill_needs_a_survivor_witness :
  (driver four_players_refilling = Refilling [0; 2; 1] 0 0 /\ [0; 2; 1] <> []) /\
  (driver no_survivors_refilling = Refilling [] 0 0 /\
   forall r,
     step example_elo no_survivors (MainRefill r) no_survivors_refilling
     = Some (set_driver (Finally [] (Some IndexError)) no_survivors_refilling)).
Proof.
  split.
  - split; [reflexivity|].
    pose proof (proj2 (refill_needs_a_survivor example_elo four_players 3 eq_refl eq_refl)
                  four_players_refilling [0; 2; 1] 0 0
                  four_players_refilling_reachable eq_refl) as [Hsome _].
    apply Hsome. lia.
  - split; [reflexivity|].
    pose proof (proj2 (refill_needs_a_survivor example_elo no_survivors 0 eq_refl eq_refl)
                  no_survivors_refilling [] 0 0
                  no_survivors_refilling_reachable eq_refl) as [_ Hnone].
    apply Hnone. reflexivity.
Defined.

(** ** Instances of the further properties *)

Lemma population_keeps_its_size_witness :
  population_of (driver two_players_waiting) = Some [0; 1] /\
  length [0; 1] = Z.to_nat (population_size two_players).
Proof.
  split; [reflexivity|].
  exact (population_keeps_its_size example_elo two_players two_players_waiting [0; 1]
           two_players_waiting_reachable eq_refl).
Defined.

Lemma threads_are_started_once_witness :
  length (live_threads four_players_end) <= threads four_players /\
  length (live_threads four_players_end) = threads four_players.
Proof.
  exact (threads_are_started_once example_elo four_players four_players_end
           four_players_end_reachable).
Defined.

Lemma train_returns_full_population_witness :
  cut_bound (Z.to_nat (population_size four_players)) (fraction_kept four_players)
  = inl 3%Z /\
  driver four_players_end = Returned [0; 2; 1; 4] /\
  length [0; 2; 1; 4] = Z.to_nat (population_size four_players).
Proof.
  split; [reflexivity|]. split; [reflexivity|].
  exact (proj2 (train_returns_full_population example_elo four_players 3
                  eq_refl eq_refl ltac:(lia)
                  four_players_end four_players_end_reachable)
               [0; 2; 1; 4] eq_refl).
Defined.

Lemma train_returns_nothing_without_survivors_witness :
  cut_bound (Z.to_nat (population_size no_survivors)) (fraction_kept no_survivors)
  = inl 0%Z /\
  exists players,
    driver no_survivors_end = Returned players /\ players = [].
Proof.
  split; [reflexivity|].
  exists []. split; [reflexivity|].
  pose proof (train_returns_nothing_without_survivors example_elo no_survivors
                eq_refl eq_refl eq_refl (le_n 1)
                no_survivors_end no_survivors_end_reachable)
    as (_ & _ & _ & _ & Hreturned).
  exact (Hreturned [] eq_refl).
Defined.

Lemma players_leave_in_pairs_witness :
  unpaired two_players_one_taken = 2 /\
  Nat.Even (unpaired two_players_one_taken) /\
  singles (live_threads two_players_one_taken) <= 1.
Proof.
  split; [reflexivity|].
  pose proof (players_leave_in_pairs example_elo two_players two_players_one_taken
                two_players_one_taken_reachable) as (Heven & Hone & _).
  split; [exact Heven | exact Hone].
Defined.

Lemma train_returns_with_empty_queue_witness :
  player_queue four_players_end = [] /\ queue_lock four_players_end = false /\
  quit_event four_players_end = true /\
  length (live_threads four_players_end) = threads four_players /\
  Forall (fun w => terminated w = true) (live_threads four_players_end).
Proof.
  exact (train_returns_with_empty_queue example_elo four_players four_players_end
           [0; 2; 1; 4] four_players_end_reachable eq_refl).
Defined.

Lemma train_never_deadlocks_witness :
  queue_lock two_players_one_taken = true /\
  exists i w s',
    nth_error (live_threads two_players_one_taken) i = Some w /\
    in_critical_section w = true /\
    step example_elo two_players (Thread i) two_players_one_taken = Some s'.
Proof.
  split; [reflexivity|].
  exact (proj1 (proj2 (train_never_deadlocks example_elo two_players two_players_one_taken
                         two_players_one_taken_reachable))
               eq_refl).
Defined.

Lemma train_without_threads_never_returns_witness :
  driver no_threads_waiting = Draining [0; 1] 0 0 /\
  length (player_queue no_threads_waiting) = Z.to_nat (population_size no_threads) /\
  step example_elo no_threads Main no_threads_waiting = Some no_threads_waiting.
Proof.
  split; [reflexivity|].
  exact (proj2 (proj2 (proj2 (proj2
           (train_without_threads_never_returns example_elo no_threads
              eq_refl ltac:(vm_compute; discriminate) eq_refl (le_n 1) (le_n 1)
              no_threads_waiting no_threads_waiting_reachable))))
           [0; 1] 0 0 eq_refl).
Defined.

Lemma full_fraction_only_sorts_witness :
  cut_bound (Z.to_nat (population_size full_fraction)) (fraction_kept full_fraction)
  = inl 2%Z /\
  evolve example_elo (1 # 2) 2 1 [5]
    [mkNNPlayer 1484 None []; mkNNPlayer 1516 None []] [0; 1]
  = (Normal, [mkNNPlayer 1484 None []; mkNNPlayer 1516 None []], [1; 0]).
Proof.
  split; [reflexivity|].
  exact (proj1 (full_fraction_only_sorts example_elo full_fraction 2 eq_refl
                  ltac:(simpl; lia))
               [5] [mkNNPlayer 1484 None []; mkNNPlayer 1516 None []] [0; 1] eq_refl).
Defined.

Lemma select_with_negative_fraction_witness :
  cut_bound (Z.to_nat (population_size negative_fraction)) (fraction_kept negative_fraction)
  = inl (-1)%Z /\
  driver negative_fraction_cutting = Cutting [1; 0] 0 /\
  step example_elo negative_fraction Main negative_fraction_cutting
  = Some (set_driver (Refilling [1] 0 0) negative_fraction_cutting).
Proof.
  split; [reflexivity|]. split; [reflexivity|].
  exact (proj1 (select_with_negative_fraction example_elo negative_fraction (-1)
                  eq_refl ltac:(lia)
                  negative_fraction_cutting [1; 0] 0
                  negative_fraction_cutting_reachable eq_refl)).
Defined.

Lemma only_matches_change_players_witness :
  exists s',
    step example_elo two_players (ThreadMatch 0 (Rated 1516 1484)) two_players_pair_taken
    = Some s' /\
    length (heap two_players_pair_taken) <= length (heap s').
Proof.
  eexists. split; [reflexivity|].
  exact (proj1 (only_matches_change_players example_elo two_players
                  (ThreadMatch 0 (Rated 1516 1484)) two_players_pair_taken _ eq_refl)).
Defined.

Lemma population_has_no_duplicates_witness :
  population_of (driver two_players_waiting) = Some [0; 1] /\
  NoDup [0; 1] /\
  Forall (fun r => r < length (heap two_players_waiting)) [0; 1].
Proof.
  split; [reflexivity|].
  exact (population_has_no_duplicates example_elo two_players two_players_waiting [0; 1]
           two_players_waiting_reachable eq_refl).
Defined.

Lemma no_player_meets_itself_witness :
  nth_error (live_threads two_players_pair_taken) 0 = Some (AtPlay 0 1) /\ 0 <> 1.
Proof.
  split; [reflexivity|].
  exact (proj1 (no_player_meets_itself example_elo two_players two_players_pair_taken
                  two_players_pair_taken_reachable)
               0 0 1 eq_refl).
Defined.
